(** * xGrowableArray: a growable array of fixed-size items with one iterator

    Shallow embedding of [utils/xGrowableArray.c] (FreeSurfer) and the
    properties of its allocation, growth and iteration protocol.

    - C [int] is a 32-bit two's complement integer: a [Z] wrapped by
      [Int.wrap] after every addition and multiplication, which is what the
      compiled code does when a product or a sum leaves the range.
    - Memory is a store of structs and a store of byte blocks, addressed by
      [addr]; a pointer is [option addr], [None] being [NULL].
    - An execution that reads or writes outside a block, dereferences a
      pointer to nothing or to a struct that was freed, divides by zero or
      frees what is not allocated has no defined result: operations return
      [option], [None] being "undefined".
    - [malloc] is driven by a reply of the allocator, supplied by the caller
      of each operation: [None] when the allocator refuses, [Some g] when it
      grants a block whose initial bytes are [g 0], [g 1], ... *)

From stdpp Require Import gmap list strings.

Local Open Scope Z_scope.

(** ** 32-bit [int] arithmetic *)

Module Int.

Definition INT_MIN : Z := - 2 ^ 31.
Definition INT_MAX : Z := 2 ^ 31 - 1.

Definition wrap (z : Z) : Z := (z + 2 ^ 31) `mod` 2 ^ 32 - 2 ^ 31.

Definition in_range (z : Z) : Prop := INT_MIN ≤ z ≤ INT_MAX.

Definition add (a b : Z) : Z := wrap (a + b).
Definition mul (a b : Z) : Z := wrap (a * b).

(** [a / b] truncates toward zero; a zero divisor and [INT_MIN / -1] have
    no defined result. *)
Definition div (a b : Z) : option Z :=
  if decide (b = 0) then None
  else if decide (a = INT_MIN ∧ b = -1) then None
  else Some (a `quot` b).

End Int.

(** ** Memory *)

Definition addr := positive.
Abbreviation ptr := (option addr).
Abbreviation NULL := (@None addr).
Abbreviation byte := Byte.byte.

(** Modelled from the spec: the enum [xGArr_tErr] is declared in
    [xGrowableArray.h]; its codes are the error kinds of the spec, under the
    names [xGrowableArray.c] uses and in the order of
    [xGArr_ksaErrorStrings]. *)
Inductive xGArr_tErr : Set :=
| xGArr_tErr_NoErr
| xGArr_tErr_InvalidObject
| xGArr_tErr_InvalidSignature
| xGArr_tErr_AllocationFailed
| xGArr_tErr_LastItem
| xGArr_tErr_InvalidErrorCode.

#[global] Instance xGArr_tErr_eq_dec : EqDecision xGArr_tErr.
Proof. solve_decision. Defined.

(** Modelled from the spec: the struct [xGrowableArray] is declared in
    [xGrowableArray.h]; its fields are the ones [xGrowableArray.c] reads and
    writes, for the validity tag, count, capacity, element size, storage
    size, cursor and storage of the spec.  The counters are [int], like the
    parameters of [xGArr_New] they are set from. *)
Record xGrowableArray : Type := mk_xGrowableArray {
  mSignature      : Z;
  mnNumItems      : Z;
  mnMaxNumItems   : Z;
  mnItemSizeBytes : Z;
  mnMaxSizeBytes  : Z;
  mnNext          : Z;
  mpData          : ptr
}.

Definition set_mSignature (v : Z) (o : xGrowableArray) : xGrowableArray :=
  mk_xGrowableArray v (mnNumItems o) (mnMaxNumItems o) (mnItemSizeBytes o)
    (mnMaxSizeBytes o) (mnNext o) (mpData o).
Definition set_mnNumItems (v : Z) (o : xGrowableArray) : xGrowableArray :=
  mk_xGrowableArray (mSignature o) v (mnMaxNumItems o) (mnItemSizeBytes o)
    (mnMaxSizeBytes o) (mnNext o) (mpData o).
Definition set_mnMaxNumItems (v : Z) (o : xGrowableArray) : xGrowableArray :=
  mk_xGrowableArray (mSignature o) (mnNumItems o) v (mnItemSizeBytes o)
    (mnMaxSizeBytes o) (mnNext o) (mpData o).
Definition set_mnMaxSizeBytes (v : Z) (o : xGrowableArray) : xGrowableArray :=
  mk_xGrowableArray (mSignature o) (mnNumItems o) (mnMaxNumItems o)
    (mnItemSizeBytes o) v (mnNext o) (mpData o).
Definition set_mnNext (v : Z) (o : xGrowableArray) : xGrowableArray :=
  mk_xGrowableArray (mSignature o) (mnNumItems o) (mnMaxNumItems o)
    (mnItemSizeBytes o) (mnMaxSizeBytes o) v (mpData o).
Definition set_mpData (v : ptr) (o : xGrowableArray) : xGrowableArray :=
  mk_xGrowableArray (mSignature o) (mnNumItems o) (mnMaxNumItems o)
    (mnItemSizeBytes o) (mnMaxSizeBytes o) (mnNext o) v.

(** [structs] holds the last contents of every struct ever allocated, also
    of the ones handed back to the allocator, whose addresses are in
    [freed]; a struct in [freed] is no longer the program's to read or
    write.  [blocks] holds the live item storage only. *)
Record memory : Type := mk_memory {
  structs : gmap addr xGrowableArray;
  blocks  : gmap addr (list byte);
  freed   : gset addr
}.

Definition empty_memory : memory := mk_memory ∅ ∅ ∅.

Definition store_struct (m : memory) (a : addr) (o : xGrowableArray) : memory :=
  mk_memory (<[a := o]> (structs m)) (blocks m) (freed m).

Definition store_block (m : memory) (a : addr) (b : list byte) : memory :=
  mk_memory (structs m) (<[a := b]> (blocks m)) (freed m).

(** The block a data pointer points to; [NULL] and dangling pointers point
    to nothing. *)
Definition load_block (m : memory) (p : ptr) : option (list byte) :=
  a ← p; blocks m !! a.

(** The address of the next allocation: the model never grants an address
    twice, not even one that was handed back. *)
Definition fresh_addr (m : memory) : addr :=
  fresh (dom (structs m) ∪ dom (blocks m) ∪ freed m).

Abbreviation malloc_reply := (option (nat → byte)).

(** [malloc (n)] for an [int] [n]: a negative [n] converts to a [size_t]
    beyond anything the allocator can grant. *)
Definition malloc (m : memory) (r : malloc_reply) (n : Z) : ptr * memory :=
  match r with
  | Some g =>
      if decide (0 ≤ n)
      then let a := fresh_addr m in
           (Some a, store_block m a (g <$> seq 0 (Z.to_nat n)))
      else (NULL, m)
  | None => (NULL, m)
  end.

(** [malloc (sizeof (xGrowableArray))]: the address only, the fields are
    written by the caller. *)
Definition malloc_struct (m : memory) (r : malloc_reply) : ptr :=
  match r with
  | Some _ => Some (fresh_addr m)
  | None => NULL
  end.

(** [free (p)] on a pointer to item storage: nothing for [NULL], the block
    is released; freeing anything else is undefined. *)
Definition free (m : memory) (p : ptr) : option memory :=
  match p with
  | None => Some m
  | Some a =>
      if decide (a ∈ dom (blocks m))
      then Some (mk_memory (structs m) (delete a (blocks m)) (freed m))
      else None
  end.

(** [free (p)] on a pointer to a struct: nothing for [NULL], the struct is
    marked as handed back; an unknown address and a second free are
    undefined. *)
Definition free_struct (m : memory) (p : ptr) : option memory :=
  match p with
  | None => Some m
  | Some a =>
      if decide (a ∈ dom (structs m) ∧ a ∉ freed m)
      then Some (mk_memory (structs m) (blocks m) ({[a]} ∪ freed m))
      else None
  end.

(** [memcpy (&dst[doff], &src[soff], n)] on the contents of two blocks: the
    new contents of [dst], undefined when either range leaves its block. *)
Definition memcpy (dst : list byte) (doff : Z) (src : list byte) (soff : Z)
    (n : Z) : option (list byte) :=
  if decide (0 ≤ n ∧ 0 ≤ doff ∧ doff + n ≤ Z.of_nat (length dst)
             ∧ 0 ≤ soff ∧ soff + n ≤ Z.of_nat (length src))
  then Some (take (Z.to_nat doff) dst
             ++ take (Z.to_nat n) (drop (Z.to_nat soff) src)
             ++ drop (Z.to_nat (doff + n)) dst)
  else None.

(** ** The operations of [xGrowableArray.c] *)

(** The constant [xGArr_kSignature] is defined in [xGrowableArray.h]; the
    operations are parametric in its value. *)
Class Signature : Set := xGArr_kSignature : Z.

Section GrowableArray.

Context {signature : Signature}.

(** [this->mSignature] on a struct that was handed back to the allocator is
    a use after free: nothing is defined. *)
Definition xGArr_Verify (m : memory) (this : ptr) : option xGArr_tErr :=
  match this with
  | None => Some xGArr_tErr_InvalidObject
  | Some a =>
      if decide (a ∈ freed m) then None
      else
        o ← structs m !! a;
        if decide (xGArr_kSignature ≠ mSignature o)
        then Some xGArr_tErr_InvalidSignature
        else Some xGArr_tErr_NoErr
  end.

(** [opList] is the caller's handle variable: [None] for a null
    [xGrowableArrayRef*], [Some h] for a variable holding [h].  The result
    carries the variable's new state. *)
Definition xGArr_New (m : memory) (opList : option ptr)
    (inSize inInitialNumItems : Z) (r1 r2 : malloc_reply)
    : option (xGArr_tErr * option ptr * memory) :=
  match malloc_struct m r1 with
  | None => Some (xGArr_tErr_AllocationFailed, opList, m)
  | Some a =>
      let o := {| mSignature      := xGArr_kSignature;
                  mnNumItems      := 0;
                  mnMaxNumItems   := inInitialNumItems;
                  mnItemSizeBytes := inSize;
                  mnMaxSizeBytes  := Int.mul inInitialNumItems inSize;
                  mnNext          := 0;
                  mpData          := NULL |} in
      let '(p, m1) := malloc (store_struct m a o) r2 (mnMaxSizeBytes o) in
      let m2 := store_struct m1 a (set_mpData p o) in
      match p with
      | None =>
          m3 ← free_struct m2 (Some a);
          Some (xGArr_tErr_AllocationFailed, opList, m3)
      | Some _ =>
          match opList with
          | None => None
          | Some _ => Some (xGArr_tErr_NoErr, Some (Some a), m2)
          end
      end
  end.

Definition xGArr_Delete (m : memory) (iopList : option ptr)
    : option (xGArr_tErr * option ptr * memory) :=
  match iopList with
  | None => Some (xGArr_tErr_InvalidObject, iopList, m)
  | Some this =>
      eResult ← xGArr_Verify m this;
      match eResult, this with
      | xGArr_tErr_NoErr, Some a =>
          o ← structs m !! a;
          let m1 := store_struct m a (set_mSignature 1 o) in
          m2 ← free m1 (mpData o);
          m3 ← free_struct m2 (Some a);
          Some (xGArr_tErr_NoErr, Some NULL, m3)
      | _, _ => Some (eResult, iopList, m)
      end
  end.

(** The growth block of [xGArr_Add], entered when the storage is full, on
    the local view [o] of [*this]: [Some None] is the jump to [error]
    after a refused allocation. *)
Definition xGArr_Add_grow (m : memory) (r : malloc_reply) (o : xGrowableArray)
    : option (option (xGrowableArray * memory)) :=
  match malloc m r (Int.mul (mnMaxSizeBytes o) 2) with
  | (None, _) => Some None
  | (Some a', m1) =>
      new ← load_block m1 (Some a');
      old ← load_block m1 (mpData o);
      new' ← memcpy new 0 old 0 (mnMaxSizeBytes o);
      m2 ← free (store_block m1 a' new') (mpData o);
      let o1 := set_mpData (Some a') o in
      let o2 := set_mnMaxSizeBytes (Int.mul (mnMaxSizeBytes o1) 2) o1 in
      n ← Int.div (mnMaxSizeBytes o2) (mnItemSizeBytes o2);
      Some (Some (set_mnMaxNumItems n o2, m2))
  end.

(** The copy of the item into slot [mnNumItems] and the increment, on the
    local view [o]; the struct is written back at [a]. *)
Definition xGArr_Add_store (m : memory) (a : addr) (o : xGrowableArray)
    (ipSrc : list byte) : option memory :=
  d ← mpData o;
  blk ← load_block m (mpData o);
  blk' ← memcpy blk (Int.mul (mnNumItems o) (mnItemSizeBytes o))
           ipSrc 0 (mnItemSizeBytes o);
  Some (store_struct (store_block m d blk') a
          (set_mnNumItems (Int.add (mnNumItems o) 1) o)).

Definition xGArr_Add (m : memory) (this : ptr) (ipSrc : list byte)
    (r : malloc_reply) : option (xGArr_tErr * memory) :=
  eResult ← xGArr_Verify m this;
  match eResult, this with
  | xGArr_tErr_NoErr, Some a =>
      o ← structs m !! a;
      grown ←
        (if decide (¬ mnNumItems o < mnMaxNumItems o)
         then xGArr_Add_grow m r o
         else Some (Some (o, m)));
      match grown with
      | None => Some (xGArr_tErr_AllocationFailed, m)
      | Some (o1, m1) =>
          m2 ← xGArr_Add_store m1 a o1 ipSrc;
          Some (xGArr_tErr_NoErr, m2)
      end
  | _, _ => Some (eResult, m)
  end.

Definition xGArr_ResetIterator (m : memory) (this : ptr)
    : option (xGArr_tErr * memory) :=
  eResult ← xGArr_Verify m this;
  match eResult, this with
  | xGArr_tErr_NoErr, Some a =>
      o ← structs m !! a;
      Some (xGArr_tErr_NoErr, store_struct m a (set_mnNext 0 o))
  | _, _ => Some (eResult, m)
  end.

(** [opDest] is the caller's output buffer; the result carries its new
    contents. *)
Definition xGArr_NextItem (m : memory) (this : ptr) (opDest : list byte)
    : option (xGArr_tErr * list byte * memory) :=
  eResult ← xGArr_Verify m this;
  match eResult, this with
  | xGArr_tErr_NoErr, Some a =>
      o ← structs m !! a;
      if decide (mnNext o >= mnNumItems o)
      then Some (xGArr_tErr_LastItem, opDest, m)
      else
        blk ← load_block m (mpData o);
        dest' ← memcpy opDest 0 blk
                  (Int.mul (mnNext o) (mnItemSizeBytes o))
                  (mnItemSizeBytes o);
        Some (xGArr_tErr_NoErr, dest',
              store_struct m a (set_mnNext (Int.add (mnNext o) 1) o))
  | _, _ => Some (eResult, opDest, m)
  end.

Definition xGArr_Clear (m : memory) (this : ptr) (r : malloc_reply)
    : option (xGArr_tErr * memory) :=
  eResult ← xGArr_Verify m this;
  match eResult, this with
  | xGArr_tErr_NoErr, Some a =>
      o ← structs m !! a;
      m1 ← free m (mpData o);
      let '(p, m2) := malloc m1 r (mnMaxSizeBytes o) in
      let o1 := set_mpData p o in
      match p with
      | None => Some (xGArr_tErr_AllocationFailed, store_struct m2 a o1)
      | Some _ =>
          let o2 := set_mnNext 0 (set_mnNumItems 0 o1) in
          Some (xGArr_tErr_NoErr, store_struct m2 a o2)
      end
  | _, _ => Some (eResult, m)
  end.

(** ** Driving an instance through a sequence of calls *)

Inductive call : Type :=
| Add (ipSrc : list byte) (r : malloc_reply)
| ResetIterator
| NextItem (opDest : list byte)
| Clear (r : malloc_reply).

(** What a call hands back: its error code and, for [NextItem], the
    contents of the output buffer. *)
Definition perform (m : memory) (this : ptr) (c : call)
    : option (xGArr_tErr * option (list byte) * memory) :=
  match c with
  | Add ipSrc r =>
      '(e, m') ← xGArr_Add m this ipSrc r; Some (e, None, m')
  | ResetIterator =>
      '(e, m') ← xGArr_ResetIterator m this; Some (e, None, m')
  | NextItem opDest =>
      '(e, d, m') ← xGArr_NextItem m this opDest; Some (e, Some d, m')
  | Clear r =>
      '(e, m') ← xGArr_Clear m this r; Some (e, None, m')
  end.

Fixpoint run (m : memory) (this : ptr) (cs : list call)
    : option (list (xGArr_tErr * option (list byte)) * memory) :=
  match cs with
  | [] => Some ([], m)
  | c :: cs' =>
      '(e, d, m1) ← perform m this c;
      '(rs, m2) ← run m1 this cs';
      Some ((e, d) :: rs, m2)
  end.

(** The test that opens the growth block of [xGArr_Add]. *)
Definition is_full (m : memory) (this : ptr) : bool :=
  match this ≫= (λ a, structs m !! a) with
  | Some o => bool_decide (¬ mnNumItems o < mnMaxNumItems o)
  | None => false
  end.

(** A growth event: an [Add] that entered the growth block and
    succeeded. *)
Definition grows (m : memory) (this : ptr) (c : call) : bool :=
  match c, perform m this c with
  | Add _ _, Some (xGArr_tErr_NoErr, _, _) => is_full m this
  | _, _ => false
  end.

Fixpoint growth_events (m : memory) (this : ptr) (cs : list call) : nat :=
  match cs with
  | [] => 0%nat
  | c :: cs' =>
      match perform m this c with
      | Some (_, _, m1) =>
          ((if grows m this c then 1 else 0) + growth_events m1 this cs')%nat
      | None => 0%nat
      end
  end.

(** Every [Clear] of the sequence succeeds. *)
Fixpoint clears_succeed (m : memory) (this : ptr) (cs : list call) : Prop :=
  match cs with
  | [] => True
  | c :: cs' =>
      match perform m this c with
      | Some (e, _, m1) =>
          (match c with Clear _ => e = xGArr_tErr_NoErr | _ => True end)
          ∧ clears_succeed m1 this cs'
      | None => True
      end
  end.

(** ** Representation invariant *)

(** The arithmetic relations between the fields of a live instance. The
    storage may be smaller than [mnMaxNumItems] items when the product of
    [xGArr_New] wrapped. *)
Record geometry (o : xGrowableArray) : Prop := {
  geo_sig   : mSignature o = xGArr_kSignature;
  geo_item  : 0 < mnItemSizeBytes o;
  geo_next  : 0 ≤ mnNext o ≤ mnNumItems o;
  geo_used  : mnNumItems o * mnItemSizeBytes o ≤ mnMaxSizeBytes o;
  geo_room  : mnMaxSizeBytes o ≤ mnMaxNumItems o * mnItemSizeBytes o;
  geo_bytes : mnMaxSizeBytes o ≤ Int.INT_MAX;
  geo_max   : mnMaxNumItems o ≤ Int.INT_MAX
}.

(** The storage of [o] is a block of [mnMaxSizeBytes] bytes that starts
    with the items [es], each [mnItemSizeBytes] long. *)
Definition stores (m : memory) (o : xGrowableArray) (es : list (list byte))
    : Prop :=
  ∃ blk, load_block m (mpData o) = Some blk
    ∧ Z.of_nat (length blk) = mnMaxSizeBytes o
    ∧ Z.of_nat (length es) = mnNumItems o
    ∧ Forall (λ e, Z.of_nat (length e) = mnItemSizeBytes o) es
    ∧ take (Z.to_nat (mnNumItems o * mnItemSizeBytes o)) blk = concat es.

(** The instance at [a] is the struct [o] and holds the items [es]. *)
Definition holds (m : memory) (a : addr) (o : xGrowableArray)
    (es : list (list byte)) : Prop :=
  structs m !! a = Some o ∧ (a ∉ freed m) ∧ geometry o ∧ stores m o es.

(** The invariants of the data model: [holds], a capacity of at least one
    item and storage of exactly [capacity * elementSize] bytes. *)
Definition valid (m : memory) (a : addr) (o : xGrowableArray)
    (es : list (list byte)) : Prop :=
  holds m a o es
  ∧ 1 ≤ mnMaxNumItems o
  ∧ mnMaxSizeBytes o = mnMaxNumItems o * mnItemSizeBytes o.

(** An instance whose storage pointer may have been lost by a failed
    [xGArr_Clear]. *)
Definition survives (m : memory) (a : addr) (o : xGrowableArray) : Prop :=
  structs m !! a = Some o ∧ (a ∉ freed m) ∧ geometry o
  ∧ (mpData o = NULL ∨ ∃ es, stores m o es).

(** The invariants of the data model, read off the memory: count within
    capacity, cursor within count, a capacity of at least one item, and a
    storage block of [capacity * elementSize] bytes. *)
Definition data_model (m : memory) (a : addr) : Prop :=
  ∃ o blk, structs m !! a = Some o
    ∧ load_block m (mpData o) = Some blk
    ∧ 0 ≤ mnNumItems o ≤ mnMaxNumItems o
    ∧ 0 ≤ mnNext o ≤ mnNumItems o
    ∧ 1 ≤ mnMaxNumItems o
    ∧ Z.of_nat (length blk) = mnMaxNumItems o * mnItemSizeBytes o.

(** The handles [xGArr_Verify] turns down, with the error it reports. *)
Inductive rejects (m : memory) : ptr → xGArr_tErr → Prop :=
| rejects_null : rejects m NULL xGArr_tErr_InvalidObject
| rejects_signature a o :
    structs m !! a = Some o → a ∉ freed m →
    mSignature o ≠ xGArr_kSignature →
    rejects m (Some a) xGArr_tErr_InvalidSignature.

End GrowableArray.

(** ** Concrete inputs *)

Module Example.

Definition signature : Signature := 0x8765.

Definition zeros : malloc_reply := Some (λ _, Byte.x00).

Definition item1 : list byte := [Byte.x01; Byte.x00; Byte.x00; Byte.x00].
Definition item2 : list byte := [Byte.x02; Byte.x00; Byte.x00; Byte.x00].
Definition item3 : list byte := [Byte.x03; Byte.x00; Byte.x00; Byte.x00].
Definition out : list byte := [Byte.xff; Byte.xff; Byte.xff; Byte.xff].

(** [xGArr_New (&h, 4, 2)] on an empty memory: the instance is at address
    1, its storage at address 2. *)
Definition created : memory :=
  match xGArr_New (signature := signature) empty_memory (Some NULL) 4 2
          zeros zeros with
  | Some (_, _, m) => m
  | None => empty_memory
  end.

(** Memory after the given calls on the instance at address 1. *)
Definition after (cs : list call) : memory :=
  match run (signature := signature) created (Some 1%positive) cs with
  | Some (_, m) => m
  | None => empty_memory
  end.

Definition struct_in (m : memory) : xGrowableArray :=
  default (mk_xGrowableArray 0 0 0 0 0 0 NULL) (structs m !! 1%positive).

Definition three_adds : list (list byte * malloc_reply) :=
  [(item1, zeros); (item2, zeros); (item3, zeros)].

(** Two items in a capacity of two: full. *)
Definition filled : memory := after [Add item1 zeros; Add item2 zeros].

(** Two items, the first one traversed. *)
Definition midway : memory :=
  after [Add item1 zeros; Add item2 zeros; ResetIterator; NextItem out].

(** Three items, after one growth. *)
Definition grown : memory :=
  after [Add item1 zeros; Add item2 zeros; Add item3 zeros].

(** Memory after [xGArr_Delete] through a handle variable on [created]. *)
Definition destroyed : memory :=
  match xGArr_Delete (signature := signature) created
          (Some (Some 1%positive)) with
  | Some (_, _, m) => m
  | None => empty_memory
  end.

End Example.

(** ** More concrete inputs *)

Module Scenario.

Import Example.

(** Three items, then a [Clear] that the allocator refuses. *)
Definition lost : memory :=
  after [Add item1 zeros; Add item2 zeros; Add item3 zeros; Clear None].

(** [grown] after [xGArr_Delete] through a handle variable. *)
Definition ended : memory :=
  match xGArr_Delete (signature := signature) grown
          (Some (Some 1%positive)) with
  | Some (_, _, m) => m
  | None => empty_memory
  end.

(** A second instance, [xGArr_New (&h2, 4, 2)] on [created]: its struct is
    at address 3, its storage at address 4. *)
Definition two : memory :=
  match xGArr_New (signature := signature) created (Some NULL) 4 2
          zeros zeros with
  | Some (_, _, m) => m
  | None => empty_memory
  end.

(** [two] after three items were added to the first instance. *)
Definition two_grown : memory :=
  match run (signature := signature) two (Some 1%positive)
          [Add item1 zeros; Add item2 zeros; Add item3 zeros] with
  | Some (_, m) => m
  | None => empty_memory
  end.

(** [created] with the signature of its struct overwritten by 0. *)
Definition overwritten : memory :=
  store_struct created 1%positive (set_mSignature 0 (struct_in created)).

(** A full instance of one item of [2 ^ 30] bytes, as a struct alone. *)
Definition huge_struct : xGrowableArray :=
  {| mSignature := signature; mnNumItems := 1; mnMaxNumItems := 1;
     mnItemSizeBytes := 2 ^ 30; mnMaxSizeBytes := 2 ^ 30; mnNext := 0;
     mpData := NULL |}.

Definition huge : memory := store_struct empty_memory 1%positive huge_struct.

End Scenario.

(** ** The error strings *)

Definition xGArr_ksaErrorStrings : list string :=
  ["No error.";
   "Invalid object.";
   "Invalid signature.";
   "Allocation failed.";
   "Last item.";
   "Invalid error code."].

(** Modelled from the spec: [xGArr_knNumErrorCodes], the last enumerator of
    [xGArr_tErr] in [xGrowableArray.h], is the number of error kinds, which
    is the declared length of [xGArr_ksaErrorStrings]. *)
Definition xGArr_knNumErrorCodes : Z := 6.

(** Modelled from the spec: the [int] value of each enumerator of
    [xGArr_tErr], its position in [xGArr_ksaErrorStrings]. *)
Definition xGArr_tErr_code (e : xGArr_tErr) : Z :=
  match e with
  | xGArr_tErr_NoErr => 0
  | xGArr_tErr_InvalidObject => 1
  | xGArr_tErr_InvalidSignature => 2
  | xGArr_tErr_AllocationFailed => 3
  | xGArr_tErr_LastItem => 4
  | xGArr_tErr_InvalidErrorCode => 5
  end.

(** [ieCode] is any [int] a caller passes for an [xGArr_tErr]; [None] would
    be a read outside the table. *)
Definition xGArr_GetErrorString (ieCode : Z) : option string :=
  let eCode :=
    if decide (ieCode < 0 ∨ ieCode >= xGArr_knNumErrorCodes)
    then xGArr_tErr_code xGArr_tErr_InvalidErrorCode
    else ieCode in
  xGArr_ksaErrorStrings !! Z.to_nat eCode.

(** ** Ownership of the storage *)

(** The live blocks that are not the storage of the instance at [a]. *)
Definition foreign_blocks (m : memory) (a : addr) : gmap addr (list byte) :=
  match structs m !! a ≫= mpData with
  | Some d => delete d (blocks m)
  | None => blocks m
  end.

(** Every struct that was handed back is a struct of the memory. *)
Definition freed_known (m : memory) : Prop := freed m ⊆ dom (structs m).


(** ** Facts about [int] arithmetic *)

Lemma wrap_in_range z : Int.in_range z → Int.wrap z = z.
Proof.
  unfold Int.in_range, Int.wrap, Int.INT_MIN, Int.INT_MAX. intros Hz.
  rewrite Z.mod_small; lia.
Qed.

Lemma wrap_le z : 0 ≤ z → Int.wrap z ≤ z.
Proof.
  unfold Int.wrap. intros Hz.
  pose proof (Z.mod_le (z + 2 ^ 31) (2 ^ 32)). lia.
Qed.

Lemma wrap_double s :
  0 ≤ s ≤ Int.INT_MAX → 0 ≤ Int.mul s 2 → Int.mul s 2 = 2 * s ∧ 2 * s ≤ Int.INT_MAX.
Proof.
  unfold Int.mul, Int.wrap, Int.INT_MAX. intros Hs Hw.
  destruct (decide (2 * s < 2 ^ 31)) as [Hlt|Hge].
  - rewrite Z.mod_small; lia.
  - exfalso.
    assert ((s * 2 + 2 ^ 31) `mod` 2 ^ 32 = s * 2 + 2 ^ 31 - 2 ^ 32) as Heq.
    { symmetry. apply (Z.mod_unique _ _ 1); lia. }
    lia.
Qed.

Lemma div_exact n e : 0 ≤ n → 0 < e → Int.div (n * e) e = Some n.
Proof.
  intros Hn He. unfold Int.div.
  rewrite decide_False by lia.
  rewrite decide_False.
  - f_equal. rewrite Z.quot_mul; lia.
  - unfold Int.INT_MIN. intros [H1 H2]. lia.
Qed.

(** ** Facts about byte blocks *)

Lemma memcpy_Some dst doff src soff n d' :
  memcpy dst doff src soff n = Some d' ↔
  (0 ≤ n ∧ 0 ≤ doff ∧ doff + n ≤ Z.of_nat (length dst)
   ∧ 0 ≤ soff ∧ soff + n ≤ Z.of_nat (length src))
  ∧ d' = take (Z.to_nat doff) dst
         ++ take (Z.to_nat n) (drop (Z.to_nat soff) src)
         ++ drop (Z.to_nat (doff + n)) dst.
Proof.
  unfold memcpy. case_decide as Hb; split.
  - intros [= <-]. done.
  - intros [_ ->]. done.
  - done.
  - intros [Hb' _]. done.
Qed.

Lemma memcpy_length dst doff src soff n d' :
  memcpy dst doff src soff n = Some d' → length d' = length dst.
Proof.
  intros [Hb ->]%memcpy_Some.
  rewrite !length_app, !length_take, !length_drop. lia.
Qed.

(** The [i]-th chunk of a concatenation of chunks of [n] bytes. *)
Lemma concat_chunk (n : nat) (es : list (list byte)) (i : nat) (e : list byte) :
  Forall (λ e, length e = n) es → es !! i = Some e →
  take n (drop (i * n) (concat es)) = e.
Proof.
  intros Hall. revert i. induction Hall as [|x es Hx Hall IH]; intros i Hi.
  - by rewrite lookup_nil in Hi.
  - destruct i as [|i]; simpl in *.
    + simplify_eq. by apply take_app_length'.
    + rewrite drop_app_add' by done. by apply IH.
Qed.

Lemma block_chunk (n : nat) (es : list (list byte)) (blk : list byte)
    (i : nat) (e : list byte) :
  Forall (λ e, length e = n) es → es !! i = Some e →
  take (length es * n) blk = concat es →
  take n (drop (i * n) blk) = e.
Proof.
  intros Hall Hi Hblk.
  assert (i < length es)%nat as Hlt by (by eapply lookup_lt_Some).
  rewrite <- (concat_chunk n es i e Hall Hi), <- Hblk.
  rewrite !take_drop_commute, take_take. f_equal. f_equal. nia.
Qed.

(** ** Preservation of the representation invariant *)

Section Invariant.

Context {signature : Signature}.

Implicit Types (m : memory) (a d : addr) (o : xGrowableArray).
Implicit Types (es : list (list byte)) (blk src dest : list byte).

Lemma Verify_live m a o :
  structs m !! a = Some o → a ∉ freed m →
  mSignature o = xGArr_kSignature →
  xGArr_Verify m (Some a) = Some xGArr_tErr_NoErr.
Proof.
  intros Ho Hlive Hsig. unfold xGArr_Verify.
  rewrite decide_False by done. rewrite Ho. simpl.
  by rewrite decide_False by (by rewrite Hsig; intros []).
Qed.

Lemma fresh_addr_fresh m :
  fresh_addr m ∉ dom (structs m) ∪ dom (blocks m) ∪ freed m.
Proof. unfold fresh_addr. apply is_fresh. Qed.

Lemma fresh_addr_blocks m : blocks m !! fresh_addr m = None.
Proof.
  apply not_elem_of_dom. intros Hin. apply (fresh_addr_fresh m).
  apply elem_of_union. left. apply elem_of_union. by right.
Qed.

Lemma fresh_addr_live m : fresh_addr m ∉ freed m.
Proof.
  intros Hin. apply (fresh_addr_fresh m). apply elem_of_union. by right.
Qed.

Lemma geometry_used_range o :
  geometry o → Int.mul (mnNumItems o) (mnItemSizeBytes o)
               = mnNumItems o * mnItemSizeBytes o
               ∧ 0 ≤ mnNumItems o * mnItemSizeBytes o.
Proof.
  intros [].
  assert (0 ≤ mnNumItems o * mnItemSizeBytes o) by nia.
  split; [|done]. apply wrap_in_range.
  unfold Int.in_range, Int.INT_MIN, Int.INT_MAX in *. lia.
Qed.

Lemma Add_store_holds m a o es src m' :
  a ∉ freed m → geometry o → stores m o es →
  xGArr_Add_store m a o src = Some m' →
  mnNumItems o < mnMaxNumItems o
  ∧ holds m' a (set_mnNumItems (mnNumItems o + 1) o)
      (es ++ [take (Z.to_nat (mnItemSizeBytes o)) src]).
Proof.
  intros Hlive Hgeo (blk & Hblk & Hlen & Hnum & Hall & Hdata) Hrun.
  destruct (geometry_used_range o Hgeo) as [Hmul Hpos].
  pose proof Hgeo as [].
  unfold xGArr_Add_store in Hrun.
  destruct (mpData o) as [d|] eqn:Hd; [|done]. simpl in Hrun, Hblk.
  rewrite Hblk in Hrun. simpl in Hrun. rewrite Hmul in Hrun.
  destruct (memcpy _ _ _ _ _) as [blk'|] eqn:Hcpy; [|done].
  simpl in Hrun. injection Hrun as <-.
  pose proof (memcpy_length _ _ _ _ _ _ Hcpy) as Hlen'.
  apply memcpy_Some in Hcpy as [Hb ->].
  assert (mnNumItems o + 1 ≤ mnMaxNumItems o) as Hle by nia.
  assert (Int.add (mnNumItems o) 1 = mnNumItems o + 1) as ->.
  { apply wrap_in_range.
    unfold Int.in_range, Int.INT_MIN, Int.INT_MAX in *. lia. }
  split; [lia|]. split; [|split; [done|split]].
  - simpl. apply lookup_insert_eq.
  - split; simpl; try done; try lia.
  - eexists. split; [|split; [|split; [|split]]].
    + simpl. rewrite Hd. simpl. apply lookup_insert_eq.
    + simpl. lia.
    + simpl. rewrite length_app. simpl. lia.
    + simpl. apply Forall_app. split; [done|].
      apply Forall_singleton. rewrite length_take. lia.
    + simpl. rewrite concat_app. simpl. rewrite app_nil_r.
      rewrite drop_0, <- Hdata, app_assoc.
      apply take_app_length'. rewrite length_app, !length_take. lia.
Qed.

Lemma Add_grow_spec m r o es :
  geometry o → stores m o es → ¬ mnNumItems o < mnMaxNumItems o →
  mnNumItems o = mnMaxNumItems o
  ∧ mnMaxSizeBytes o = mnMaxNumItems o * mnItemSizeBytes o
  ∧ ((xGArr_Add_grow m r o = Some None
      ∧ (malloc m r (Int.mul (mnMaxSizeBytes o) 2)).1 = NULL)
     ∨ ∃ o' m', xGArr_Add_grow m r o = Some (Some (o', m'))
         ∧ geometry o' ∧ stores m' o' es
         ∧ structs m' = structs m
         ∧ mnNumItems o' = mnNumItems o
         ∧ mnNext o' = mnNext o
         ∧ mnItemSizeBytes o' = mnItemSizeBytes o
         ∧ mnMaxNumItems o' = 2 * mnMaxNumItems o
         ∧ mnMaxSizeBytes o' = 2 * mnMaxSizeBytes o
         ∧ freed m' = freed m).
Proof.
  intros Hgeo (blk & Hblk & Hlen & Hnum & Hall & Hdata) Hfull.
  destruct (geometry_used_range o Hgeo) as [Hmul Hpos].
  pose proof Hgeo as [].
  assert (mnNumItems o = mnMaxNumItems o) as Heq by nia.
  assert (mnMaxSizeBytes o = mnMaxNumItems o * mnItemSizeBytes o) as Hsz by nia.
  assert (0 ≤ mnMaxNumItems o) as Hcap by lia.
  split; [done|]. split; [done|].
  unfold xGArr_Add_grow, malloc.
  destruct r as [g|]; [|by left].
  case_decide as Hgrant; [|by left]. right.
  destruct (wrap_double (mnMaxSizeBytes o)) as [Hdbl Hfit]; [lia|done|].
  destruct (mpData o) as [d|] eqn:Hd; [|done]. simpl in Hblk.
  pose proof (fresh_addr_blocks m) as Hfresh.
  assert (d ≠ fresh_addr m) as Hne by congruence.
  set (a' := fresh_addr m) in *.
  set (new := g <$> seq 0 (Z.to_nat (Int.mul (mnMaxSizeBytes o) 2))).
  assert (Z.of_nat (length new) = 2 * mnMaxSizeBytes o) as Hnew.
  { unfold new. rewrite length_fmap, length_seq. lia. }
  cbn [load_block store_block blocks mbind option_bind].
  rewrite lookup_insert_eq. cbn [mbind option_bind].
  rewrite lookup_insert_ne by done. rewrite Hblk. cbn [mbind option_bind].
  assert (memcpy new 0 blk 0 (mnMaxSizeBytes o)
          = Some (blk ++ drop (length blk) new)) as ->.
  { apply memcpy_Some. split; [lia|].
    rewrite drop_0. simpl.
    rewrite take_ge by lia. do 2 f_equal. lia. }
  cbn [mbind option_bind free blocks structs freed].
  rewrite decide_True; last first.
  { apply elem_of_dom. simpl. rewrite !lookup_insert_ne by done. by eexists. }
  cbn [mbind option_bind set_mpData set_mnMaxSizeBytes mnMaxSizeBytes
       mnItemSizeBytes].
  rewrite Hdbl.
  replace (2 * mnMaxSizeBytes o)
    with ((2 * mnMaxNumItems o) * mnItemSizeBytes o) by lia.
  rewrite div_exact by lia. cbn [mbind option_bind].
  eexists _, _. split; [done|].
  split; [split; simpl; try done; nia|].
  split.
  { eexists. split; [|split; [|split; [|split]]].
    - simpl. rewrite lookup_delete_ne by done. apply lookup_insert_eq.
    - simpl. rewrite length_app, length_drop. lia.
    - done.
    - done.
    - simpl. rewrite take_app_le by lia. done. }
  simpl. repeat split; lia.
Qed.

(** [xGArr_Add] on an instance that holds [es]: either the allocation of
    the growth block is refused and nothing changes, or the item is
    appended, after a doubling when the storage was full. *)
Lemma Add_spec m a o es src r e m' :
  holds m a o es →
  xGArr_Add m (Some a) src r = Some (e, m') →
  (e = xGArr_tErr_AllocationFailed ∧ m' = m
   ∧ mnNumItems o = mnMaxNumItems o
   ∧ (malloc m r (Int.mul (mnMaxSizeBytes o) 2)).1 = NULL)
  ∨ (e = xGArr_tErr_NoErr
     ∧ ∃ o', holds m' a o' (es ++ [take (Z.to_nat (mnItemSizeBytes o)) src])
         ∧ mnNumItems o' = mnNumItems o + 1
         ∧ mnNext o' = mnNext o
         ∧ mnItemSizeBytes o' = mnItemSizeBytes o
         ∧ ((mnNumItems o < mnMaxNumItems o
             ∧ mnMaxNumItems o' = mnMaxNumItems o
             ∧ mnMaxSizeBytes o' = mnMaxSizeBytes o)
            ∨ (mnNumItems o = mnMaxNumItems o
               ∧ mnMaxSizeBytes o = mnMaxNumItems o * mnItemSizeBytes o
               ∧ mnMaxNumItems o' = 2 * mnMaxNumItems o
               ∧ mnMaxSizeBytes o' = 2 * mnMaxSizeBytes o))).
Proof.
  intros (Ho & Hlive & Hgeo & Hst) Hrun. unfold xGArr_Add in Hrun.
  rewrite (Verify_live m a o) in Hrun by (done || by destruct Hgeo).
  cbn [mbind option_bind] in Hrun. rewrite Ho in Hrun.
  cbn [mbind option_bind] in Hrun.
  case_decide as Hfull.
  - destruct (Add_grow_spec m r o es Hgeo Hst Hfull)
      as (Heq & Hsz & [[Hg Hm] | (o1 & m1 & Hg & Hgeo1 & Hst1 & _ & Hn & Hx
                                   & Hi & Hc & Hs & Hfr)]);
      rewrite Hg in Hrun; cbn [mbind option_bind] in Hrun.
    + injection Hrun as <- <-. by left.
    + destruct (xGArr_Add_store m1 a o1 src) as [m2|] eqn:Hstore; [|done].
      injection Hrun as <- <-. right. split; [done|].
      assert (a ∉ freed m1) as Hlive1 by (by rewrite Hfr).
      destruct (Add_store_holds _ _ _ _ _ _ Hlive1 Hgeo1 Hst1 Hstore)
        as [_ Hh].
      rewrite Hi in Hh. eexists. split; [exact Hh|].
      simpl. repeat split; lia.
  - cbn [mbind option_bind] in Hrun.
    destruct (xGArr_Add_store m a o src) as [m2|] eqn:Hstore; [|done].
    injection Hrun as <- <-. right. split; [done|].
    destruct (Add_store_holds _ _ _ _ _ _ Hlive Hgeo Hst Hstore)
      as [Hlt Hh].
    eexists. split; [exact Hh|].
    simpl. repeat split; lia.
Qed.

Lemma holds_set_mnNext m a o es v :
  holds m a o es → 0 ≤ v ≤ mnNumItems o →
  holds (store_struct m a (set_mnNext v o)) a (set_mnNext v o) es.
Proof.
  intros (Ho & Hlive & Hgeo & Hst) Hv. split; [|split; [done|split]].
  - simpl. apply lookup_insert_eq.
  - destruct Hgeo. by split.
  - exact Hst.
Qed.

Lemma ResetIterator_live m a o :
  structs m !! a = Some o → a ∉ freed m →
  mSignature o = xGArr_kSignature →
  xGArr_ResetIterator m (Some a)
  = Some (xGArr_tErr_NoErr, store_struct m a (set_mnNext 0 o)).
Proof.
  intros Ho Hlive Hsig. unfold xGArr_ResetIterator.
  rewrite (Verify_live m a o) by done. simpl. by rewrite Ho.
Qed.

(** At the end of the sequence nothing is copied and nothing changes. *)
Lemma NextItem_last m a o dest :
  structs m !! a = Some o → a ∉ freed m →
  mSignature o = xGArr_kSignature →
  mnNext o >= mnNumItems o →
  xGArr_NextItem m (Some a) dest = Some (xGArr_tErr_LastItem, dest, m).
Proof.
  intros Ho Hlive Hsig Hend. unfold xGArr_NextItem.
  rewrite (Verify_live m a o) by done. simpl. rewrite Ho. simpl.
  by rewrite decide_True.
Qed.

(** Before the end, the item under the cursor is copied out and the
    cursor advances. *)
Lemma NextItem_item m a o es dest e :
  holds m a o es → es !! Z.to_nat (mnNext o) = Some e →
  mnItemSizeBytes o ≤ Z.of_nat (length dest) →
  xGArr_NextItem m (Some a) dest
  = Some (xGArr_tErr_NoErr,
          e ++ drop (Z.to_nat (mnItemSizeBytes o)) dest,
          store_struct m a (set_mnNext (mnNext o + 1) o)).
Proof.
  intros (Ho & Hlive & Hgeo & blk & Hblk & Hlen & Hnum & Hall & Hdata) He Hdest.
  pose proof Hgeo as [].
  assert (mnNext o < mnNumItems o) as Hlt.
  { apply lookup_lt_Some in He. lia. }
  unfold xGArr_NextItem.
  rewrite (Verify_live m a o) by done. simpl. rewrite Ho. simpl.
  rewrite decide_False by lia. rewrite Hblk. simpl.
  assert (0 ≤ mnNext o * mnItemSizeBytes o
          ∧ mnNext o * mnItemSizeBytes o + mnItemSizeBytes o
            ≤ mnMaxSizeBytes o) as Hoff by nia.
  assert (Int.mul (mnNext o) (mnItemSizeBytes o)
          = mnNext o * mnItemSizeBytes o) as ->.
  { apply wrap_in_range.
    unfold Int.in_range, Int.INT_MIN, Int.INT_MAX in *. lia. }
  assert (Int.add (mnNext o) 1 = mnNext o + 1) as ->.
  { apply wrap_in_range.
    unfold Int.in_range, Int.INT_MIN, Int.INT_MAX in *. nia. }
  set (n := Z.to_nat (mnItemSizeBytes o)).
  assert (take n (drop (Z.to_nat (mnNext o) * n) blk) = e) as Hchunk.
  { apply (block_chunk n es); [|done|].
    - eapply Forall_impl; [exact Hall|]. simpl. intros x Hx. lia.
    - rewrite <- Hdata. f_equal. nia. }
  assert (memcpy dest 0 blk (mnNext o * mnItemSizeBytes o) (mnItemSizeBytes o)
          = Some (e ++ drop n dest)) as ->.
  { apply memcpy_Some. split; [lia|]. simpl.
    rewrite <- Hchunk.
    replace (Z.to_nat (mnNext o * mnItemSizeBytes o))
      with (Z.to_nat (mnNext o) * n)%nat by nia.
    by replace (Z.to_nat (0 + mnItemSizeBytes o)) with n by lia. }
  done.
Qed.

(** A traversal from the cursor: the remaining items in order, then
    [LastItem], the storage untouched. *)
Lemma traverse_spec (n : nat) m a o es dest :
  holds m a o es →
  mnItemSizeBytes o ≤ Z.of_nat (length dest) →
  n = Z.to_nat (mnNumItems o - mnNext o) →
  ∃ m' o',
    run m (Some a) (replicate (S n) (NextItem dest))
    = Some (((λ e, (xGArr_tErr_NoErr,
                    Some (e ++ drop (Z.to_nat (mnItemSizeBytes o)) dest)))
               <$> drop (Z.to_nat (mnNext o)) es)
            ++ [(xGArr_tErr_LastItem, Some dest)], m')
    ∧ holds m' a o' es
    ∧ mnNext o' = mnNumItems o
    ∧ mnNumItems o' = mnNumItems o
    ∧ mnMaxNumItems o' = mnMaxNumItems o
    ∧ mnMaxSizeBytes o' = mnMaxSizeBytes o
    ∧ mnItemSizeBytes o' = mnItemSizeBytes o
    ∧ mpData o' = mpData o
    ∧ blocks m' = blocks m.
Proof.
  revert m o. induction n as [|n IH]; intros m o Hh Hdest Hn.
  - pose proof Hh as (Ho & Hlive & Hgeo & blk & Hblk & Hlen & Hnum & Hall & Hdata).
    pose proof Hgeo as [].
    exists m, o. split; [|split; [exact Hh|repeat split; lia]].
    cbn [replicate run perform mbind option_bind].
    rewrite (NextItem_last m a o) by (done || lia).
    cbn [mbind option_bind]. rewrite (drop_ge es) by lia. done.
  - pose proof Hh as (Ho & Hlive & Hgeo & blk & Hblk & Hlen & Hnum & Hall & Hdata).
    pose proof Hgeo as [].
    destruct (es !! Z.to_nat (mnNext o)) as [e|] eqn:He; last first.
    { apply lookup_ge_None in He. lia. }
    destruct (IH (store_struct m a (set_mnNext (mnNext o + 1) o))
                (set_mnNext (mnNext o + 1) o))
      as (m' & o' & Hrun & Hh' & Hrest).
    { apply holds_set_mnNext; [done|lia]. }
    { done. }
    { simpl. lia. }
    exists m', o'. split; [|exact (conj Hh' Hrest)].
    change (replicate (S (S n)) (NextItem dest))
      with (NextItem dest :: replicate (S n) (NextItem dest)).
    cbn [run perform mbind option_bind].
    rewrite (NextItem_item m a o es dest e) by done.
    cbn [mbind option_bind]. rewrite Hrun. cbn [mbind option_bind].
    rewrite (drop_S _ _ _ He). simpl.
    by replace (Z.to_nat (mnNext o + 1)) with (S (Z.to_nat (mnNext o))) by lia.
Qed.

(** [xGArr_Clear] keeps the geometry; on success the instance is empty
    over a fresh block, on a refused allocation the storage is gone. *)
Lemma Clear_spec m a o r e m' :
  survives m a o →
  xGArr_Clear m (Some a) r = Some (e, m') →
  ∃ o', structs m' !! a = Some o'
    ∧ mnMaxNumItems o' = mnMaxNumItems o
    ∧ mnMaxSizeBytes o' = mnMaxSizeBytes o
    ∧ mnItemSizeBytes o' = mnItemSizeBytes o
    ∧ (∀ d, mpData o = Some d → d ∉ dom (blocks m') ∨ mpData o' = Some d)
    ∧ ((e = xGArr_tErr_NoErr ∧ r ≠ None
        ∧ mnNumItems o' = 0 ∧ mnNext o' = 0 ∧ holds m' a o' [])
       ∨ (e = xGArr_tErr_AllocationFailed ∧ r = None
          ∧ o' = set_mpData NULL o
          ∧ ∀ d, mpData o = Some d → d ∉ dom (blocks m'))).
Proof.
  intros (Ho & Hlive & Hgeo & Hdata) Hrun. pose proof Hgeo as [].
  unfold xGArr_Clear in Hrun.
  rewrite (Verify_live m a o) in Hrun by done.
  cbn [mbind option_bind] in Hrun. rewrite Ho in Hrun.
  cbn [mbind option_bind] in Hrun.
  assert (∃ m1, free m (mpData o) = Some m1
                ∧ structs m1 = structs m
                ∧ freed m1 = freed m
                ∧ (∀ d, mpData o = Some d → d ∉ dom (blocks m1))) as Hfree.
  { destruct Hdata as [Hnull|(es & blk & Hblk & _)].
    - rewrite Hnull. exists m. by repeat split.
    - destruct (mpData o) as [d|] eqn:Hd; [|done]. simpl in Hblk.
      unfold free. rewrite decide_True by (apply elem_of_dom; by eexists).
      eexists. split; [done|]. split; [done|]. split; [done|].
      intros ? [= <-]. simpl. apply not_elem_of_dom, lookup_delete_eq. }
  destruct Hfree as (m1 & Hfree & Hst1 & Hfr1 & Hgone).
  rewrite Hfree in Hrun. cbn [mbind option_bind] in Hrun.
  assert (0 ≤ mnMaxSizeBytes o) as Hsz by nia.
  unfold malloc in Hrun. destruct r as [g|].
  - rewrite decide_True in Hrun by done. injection Hrun as <- <-.
    eexists. split; [apply lookup_insert_eq|].
    simpl. repeat split; try done.
    { intros d Hd. destruct (decide (d = fresh_addr m1)) as [->|Hne].
      - by right.
      - left. simpl. apply not_elem_of_dom.
        rewrite lookup_insert_ne by done. by apply not_elem_of_dom, Hgone. }
    left. do 4 (split; [done|]).
    split; [apply lookup_insert_eq|]. split; [simpl; by rewrite Hfr1|].
    split; [split; simpl; try done; lia|].
    eexists. simpl. rewrite lookup_insert_eq.
    split; [done|]. rewrite length_fmap, length_seq.
    repeat split; try lia. by apply Forall_nil.
  - injection Hrun as <- <-.
    eexists. split; [apply lookup_insert_eq|].
    simpl. repeat split; try done.
    { intros d Hd. left. by apply Hgone. }
    right. by repeat split.
Qed.

Lemma Clear_freed m a r e m' :
  xGArr_Clear m (Some a) r = Some (e, m') → freed m' = freed m.
Proof.
  unfold xGArr_Clear. intros Hrun.
  destruct (xGArr_Verify m (Some a)) as [e0|]; [|done].
  cbn [mbind option_bind] in Hrun.
  destruct (decide (e0 = xGArr_tErr_NoErr)) as [->|Hne];
    [|by destruct e0; simplify_eq].
  destruct (structs m !! a) as [o|]; [|done].
  cbn [mbind option_bind] in Hrun.
  destruct (free m (mpData o)) as [m1|] eqn:Hfree; [|done].
  cbn [mbind option_bind] in Hrun.
  assert (freed m1 = freed m) as Hfr1.
  { unfold free in Hfree. destruct (mpData o) as [d|]; [|by simplify_eq].
    case_decide; [|done]. by injection Hfree as <-. }
  unfold malloc in Hrun. destruct r as [g|]; [case_decide|];
    by injection Hrun as <- <-.
Qed.

(** A successful [xGArr_New] yields an empty instance of capacity
    [inInitialNumItems] over [inInitialNumItems * inSize] bytes, the
    product taken in [int]. *)
Lemma New_spec m h inSize inInitialNumItems r1 r2 e v m' :
  0 < inSize ≤ Int.INT_MAX → 0 < inInitialNumItems ≤ Int.INT_MAX →
  xGArr_New m (Some h) inSize inInitialNumItems r1 r2 = Some (e, v, m') →
  (e = xGArr_tErr_AllocationFailed ∧ v = Some h)
  ∨ (e = xGArr_tErr_NoErr
     ∧ ∃ a o, v = Some (Some a) ∧ holds m' a o []
         ∧ mnNumItems o = 0 ∧ mnNext o = 0
         ∧ mnMaxNumItems o = inInitialNumItems
         ∧ mnItemSizeBytes o = inSize
         ∧ mnMaxSizeBytes o = Int.mul inInitialNumItems inSize).
Proof.
  intros HE HC Hrun. unfold xGArr_New, malloc_struct, malloc in Hrun.
  destruct r1 as [g1|]; [|injection Hrun as <- <- <-; by left].
  destruct r2 as [g2|]; cbn [mnMaxSizeBytes] in Hrun.
  - case_decide as Hgrant.
    + cbn [mbind option_bind] in Hrun. injection Hrun as <- <- <-.
      assert (Int.mul inInitialNumItems inSize ≤ inInitialNumItems * inSize)
        as Hle by (apply wrap_le; nia).
      assert (Int.mul inInitialNumItems inSize ≤ Int.INT_MAX) as Hmax.
      { unfold Int.mul, Int.wrap, Int.INT_MAX.
        pose proof (Z.mod_pos_bound (inInitialNumItems * inSize + 2 ^ 31)
                      (2 ^ 32)). lia. }
      right. split; [done|]. eexists _, _. split; [done|].
      split; [split; [apply lookup_insert_eq|split; [|split]]|].
      * simpl. apply fresh_addr_live.
      * split; simpl; try done; lia.
      * eexists. simpl. rewrite lookup_insert_eq.
        split; [done|]. rewrite length_fmap, length_seq.
        repeat split; try lia. by apply Forall_nil.
      * simpl. repeat split; reflexivity.
    + destruct (free_struct _ _) as [m3|]; [|done].
      cbn [mbind option_bind] in Hrun. injection Hrun as <- <- <-. by left.
  - destruct (free_struct _ _) as [m3|]; [|done].
    cbn [mbind option_bind] in Hrun. injection Hrun as <- <- <-. by left.
Qed.

Lemma holds_survives m a o es : holds m a o es → survives m a o.
Proof.
  intros (Ho & Hlive & Hgeo & Hst).
  split; [done|]. split; [done|]. split; [done|]. eauto.
Qed.

(** Without storage, [xGArr_Add] can only report a refused allocation. *)
Lemma Add_lost m a o src r e m' :
  structs m !! a = Some o → a ∉ freed m →
  mSignature o = xGArr_kSignature →
  mpData o = NULL →
  xGArr_Add m (Some a) src r = Some (e, m') →
  e = xGArr_tErr_AllocationFailed ∧ m' = m.
Proof.
  intros Ho Hlive Hsig Hd Hrun. unfold xGArr_Add in Hrun.
  rewrite (Verify_live m a o) in Hrun by done.
  cbn [mbind option_bind] in Hrun. rewrite Ho in Hrun.
  cbn [mbind option_bind] in Hrun.
  case_decide as Hfull.
  - unfold xGArr_Add_grow in Hrun.
    destruct (malloc m r _) as [[a'|] m1].
    + rewrite Hd in Hrun. simpl in Hrun.
      by destruct (blocks m1 !! a').
    + simpl in Hrun. by injection Hrun as <- <-.
  - simpl in Hrun. unfold xGArr_Add_store in Hrun. by rewrite Hd in Hrun.
Qed.

Lemma NextItem_spec m a o dest e dest' m' :
  survives m a o →
  xGArr_NextItem m (Some a) dest = Some (e, dest', m') →
  (e = xGArr_tErr_LastItem ∧ dest' = dest ∧ m' = m)
  ∨ (e = xGArr_tErr_NoErr ∧ mnNext o < mnNumItems o
     ∧ m' = store_struct m a (set_mnNext (mnNext o + 1) o)).
Proof.
  intros (Ho & Hlive & Hgeo & _) Hrun. pose proof Hgeo as [].
  unfold xGArr_NextItem in Hrun.
  rewrite (Verify_live m a o) in Hrun by done.
  cbn [mbind option_bind] in Hrun. rewrite Ho in Hrun.
  cbn [mbind option_bind] in Hrun.
  case_decide as Hend.
  - injection Hrun as <- <- <-. by left.
  - destruct (load_block m (mpData o)) as [blk|]; [|done].
    cbn [mbind option_bind] in Hrun.
    destruct (memcpy _ _ _ _ _) as [d|]; [|done].
    cbn [mbind option_bind] in Hrun. injection Hrun as <- <- <-.
    right. split; [done|]. split; [lia|].
    assert (mnNumItems o ≤ mnMaxNumItems o) by nia.
    unfold Int.add. rewrite (wrap_in_range (mnNext o + 1)); [done|].
    unfold Int.in_range, Int.INT_MIN, Int.INT_MAX in *. lia.
Qed.

Lemma survives_set_mnNext m a o v :
  survives m a o → 0 ≤ v ≤ mnNumItems o →
  survives (store_struct m a (set_mnNext v o)) a (set_mnNext v o).
Proof.
  intros (Ho & Hlive & Hgeo & Hst) Hv. split; [|split; [done|split]].
  - simpl. apply lookup_insert_eq.
  - destruct Hgeo. by split.
  - exact Hst.
Qed.

Lemma grows_Add m a o src r :
  structs m !! a = Some o →
  grows m (Some a) (Add src r)
  = match xGArr_Add m (Some a) src r with
    | Some (xGArr_tErr_NoErr, _) =>
        bool_decide (¬ mnNumItems o < mnMaxNumItems o)
    | _ => false
    end.
Proof.
  intros Ho. unfold grows, perform, is_full. simpl. rewrite Ho.
  destruct (xGArr_Add m (Some a) src r) as [[[] m']|]; done.
Qed.

(** One call on an instance that survives: it still survives, its item
    size is the same, and its capacity doubled if the call was a growth
    event and is the same otherwise. *)
Lemma perform_survives m a o c e out m' :
  survives m a o →
  perform m (Some a) c = Some (e, out, m') →
  ∃ o', survives m' a o'
    ∧ mnItemSizeBytes o' = mnItemSizeBytes o
    ∧ mnMaxNumItems o'
      = (if grows m (Some a) c then 2 else 1) * mnMaxNumItems o.
Proof.
  intros Hs Hrun. pose proof Hs as (Ho & Hlive & Hgeo & Hdata).
  pose proof Hgeo as [].
  destruct c as [src r| |dest|r]; simpl in Hrun.
  - rewrite (grows_Add m a o) by done.
    destruct (xGArr_Add m (Some a) src r) as [[e1 m1]|] eqn:Hadd; [|done].
    simpl in Hrun. injection Hrun as <- <- <-.
    destruct Hdata as [Hnull|[es Hst]].
    + destruct (Add_lost _ _ _ _ _ _ _ Ho Hlive geo_sig0 Hnull Hadd)
        as [-> ->].
      exists o. split; [done|]. lia.
    + destruct (Add_spec m a o es src r e1 m1 (conj Ho (conj Hlive (conj Hgeo Hst))) Hadd)
        as [(-> & -> & _)|(-> & o' & Hh & _ & _ & Hi & Hcap)].
      * exists o. split; [done|]. lia.
      * exists o'. split; [by eapply holds_survives|]. split; [done|].
        destruct Hcap as [(Hlt & -> & _)|(Heq & _ & -> & _)].
        -- rewrite bool_decide_eq_false_2 by lia. lia.
        -- rewrite bool_decide_eq_true_2 by lia. lia.
  - rewrite (ResetIterator_live m a o) in Hrun by done.
    simpl in Hrun. injection Hrun as <- <- <-.
    eexists. split; [apply survives_set_mnNext; [done|lia]|].
    unfold grows. simpl. lia.
  - destruct (xGArr_NextItem m (Some a) dest) as [[[e1 d1] m1]|] eqn:Hnext;
      [|done].
    simpl in Hrun. injection Hrun as <- <- <-.
    change (grows m (Some a) (NextItem dest)) with false.
    destruct (NextItem_spec _ _ _ _ _ _ _ Hs Hnext)
      as [(-> & -> & ->)|(-> & Hlt & ->)].
    + exists o. split; [done|]. lia.
    + eexists. split; [apply survives_set_mnNext; [done|lia]|].
      simpl. lia.
  - destruct (xGArr_Clear m (Some a) r) as [[e1 m1]|] eqn:Hclear; [|done].
    simpl in Hrun. injection Hrun as <- <- <-.
    change (grows m (Some a) (Clear r)) with false.
    destruct (Clear_spec _ _ _ _ _ _ Hs Hclear)
      as (o' & Ho' & Hc & Hsz & Hi & _ & Hres).
    exists o'. split; [|lia].
    destruct Hres as [(_ & _ & _ & _ & Hh)|(_ & _ & -> & _)].
    + by eapply holds_survives.
    + split; [done|]. split; [by rewrite (Clear_freed _ _ _ _ _ Hclear)|].
      split; [by split|]. by left.
Qed.

Lemma run_survives cs m a o rs m' :
  survives m a o →
  run m (Some a) cs = Some (rs, m') →
  ∃ o', survives m' a o'
    ∧ mnItemSizeBytes o' = mnItemSizeBytes o
    ∧ mnMaxNumItems o'
      = mnMaxNumItems o * 2 ^ Z.of_nat (growth_events m (Some a) cs).
Proof.
  revert m o rs. induction cs as [|c cs IH]; intros m o rs Hs Hrun.
  - simpl in Hrun. injection Hrun as <- <-. exists o. simpl.
    split; [done|]. lia.
  - cbn [run growth_events] in *.
    destruct (perform m (Some a) c) as [[[e out] m1]|] eqn:Hc; [|done].
    cbn [mbind option_bind] in Hrun.
    destruct (run m1 (Some a) cs) as [[rs1 m2]|] eqn:Hcs; [|done].
    cbn [mbind option_bind] in Hrun. injection Hrun as <- <-.
    destruct (perform_survives _ _ _ _ _ _ _ Hs Hc) as (o1 & Hs1 & Hi1 & Hc1).
    destruct (IH _ _ _ Hs1 Hcs) as (o2 & Hs2 & Hi2 & Hc2).
    exists o2. split; [done|]. split; [congruence|].
    rewrite Hc2, Hc1. destruct (grows m (Some a) c).
    + rewrite Nat2Z.inj_add, Z.pow_add_r by lia. simpl (Z.of_nat 1). lia.
    + simpl (0 + _)%nat. lia.
Qed.

(** One call on a valid instance, a [Clear] being successful, leaves a
    valid instance. *)
Lemma perform_valid m a o es c e out m' :
  valid m a o es →
  perform m (Some a) c = Some (e, out, m') →
  (match c with Clear _ => e = xGArr_tErr_NoErr | _ => True end) →
  ∃ o' es', valid m' a o' es'.
Proof.
  intros (Hh & Hcap & Hsz) Hrun Hok.
  pose proof Hh as (Ho & Hlive & Hgeo & Hst). pose proof Hgeo as [].
  destruct c as [src r| |dest|r]; simpl in Hrun.
  - destruct (xGArr_Add m (Some a) src r) as [[e1 m1]|] eqn:Hadd; [|done].
    simpl in Hrun. injection Hrun as <- <- <-.
    destruct (Add_spec m a o es src r e1 m1 Hh Hadd)
      as [(-> & -> & _)|(-> & o' & Hh' & _ & _ & Hi & Hgrow)].
    + by exists o, es.
    + exists o', (es ++ [take (Z.to_nat (mnItemSizeBytes o)) src]).
      split; [done|]. nia.
  - rewrite (ResetIterator_live m a o) in Hrun by done.
    simpl in Hrun. injection Hrun as <- <- <-.
    eexists _, es. split; [apply holds_set_mnNext; [done|lia]|]. by simpl.
  - destruct (xGArr_NextItem m (Some a) dest) as [[[e1 d1] m1]|] eqn:Hnext;
      [|done].
    simpl in Hrun. injection Hrun as <- <- <-.
    destruct (NextItem_spec _ _ _ _ _ _ _ (holds_survives _ _ _ _ Hh) Hnext)
      as [(-> & -> & ->)|(-> & Hlt & ->)].
    + by exists o, es.
    + eexists _, es. split; [apply holds_set_mnNext; [done|lia]|]. by simpl.
  - destruct (xGArr_Clear m (Some a) r) as [[e1 m1]|] eqn:Hclear; [|done].
    simpl in Hrun. injection Hrun as <- <- <-. subst e1.
    destruct (Clear_spec _ _ _ _ _ _ (holds_survives _ _ _ _ Hh) Hclear)
      as (o' & Ho' & Hc & Hs & Hi & _ & [(_ & _ & _ & _ & Hh')|(? & _)]);
      [|done].
    exists o', []. split; [done|]. lia.
Qed.

Lemma run_valid cs m a o es rs m' :
  valid m a o es →
  run m (Some a) cs = Some (rs, m') →
  clears_succeed m (Some a) cs →
  ∃ o' es', valid m' a o' es'.
Proof.
  revert m o es rs. induction cs as [|c cs IH]; intros m o es rs Hv Hrun Hok.
  - simpl in Hrun. injection Hrun as <- <-. by exists o, es.
  - cbn [run clears_succeed] in *.
    destruct (perform m (Some a) c) as [[[e out] m1]|] eqn:Hc; [|done].
    cbn [mbind option_bind] in Hrun.
    destruct (run m1 (Some a) cs) as [[rs1 m2]|] eqn:Hcs; [|done].
    destruct Hok as [Hok1 Hok2].
    destruct (perform_valid _ _ _ _ _ _ _ _ Hv Hc Hok1) as (o1 & es1 & Hv1).
    cbn [mbind option_bind] in Hrun. injection Hrun as <- <-.
    by eapply IH.
Qed.

(** A sequence of successful [Add]s appends its items in order and leaves
    the cursor alone. *)
Lemma run_adds (adds : list (list byte * malloc_reply)) m a o es rs m' :
  holds m a o es →
  run m (Some a) ((λ x, Add x.1 x.2) <$> adds) = Some (rs, m') →
  Forall (λ x, x.1 = xGArr_tErr_NoErr) rs →
  ∃ o', holds m' a o'
          (es ++ (take (Z.to_nat (mnItemSizeBytes o)) <$> adds.*1))
    ∧ mnNumItems o' = mnNumItems o + Z.of_nat (length adds)
    ∧ mnNext o' = mnNext o
    ∧ mnItemSizeBytes o' = mnItemSizeBytes o.
Proof.
  revert m o es rs.
  induction adds as [|[src r] adds IH]; intros m o es rs Hh Hrun Hok.
  - simpl in Hrun. injection Hrun as <- <-. exists o.
    simpl. rewrite app_nil_r. split; [done|]. lia.
  - cbn [fmap list_fmap run perform fst snd] in Hrun.
    destruct (xGArr_Add m (Some a) src r) as [[e1 m1]|] eqn:Hadd; [|done].
    cbn [mbind option_bind] in Hrun.
    destruct (run m1 (Some a) _) as [[rs1 m2]|] eqn:Hcs; [|done].
    cbn [mbind option_bind] in Hrun. injection Hrun as <- <-.
    apply Forall_cons in Hok as [He1 Hok]. simpl in He1. subst e1.
    destruct (Add_spec m a o es src r _ m1 Hh Hadd)
      as [(? & _)|(_ & o1 & Hh1 & Hn1 & Hx1 & Hi1 & _)]; [done|].
    destruct (IH _ _ _ _ Hh1 Hcs Hok) as (o2 & Hh2 & Hn2 & Hx2 & Hi2).
    exists o2. rewrite Hi1, <- app_assoc in Hh2.
    split; [exact Hh2|]. simpl. lia.
Qed.

(** [xGArr_Clear] is defined on every instance that survives. *)
Lemma Clear_defined m a o r :
  survives m a o → is_Some (xGArr_Clear m (Some a) r).
Proof.
  intros (Ho & Hlive & Hgeo & Hdata). pose proof Hgeo as [].
  unfold xGArr_Clear.
  rewrite (Verify_live m a o) by done.
  cbn [mbind option_bind]. rewrite Ho. cbn [mbind option_bind].
  assert (is_Some (free m (mpData o))) as [m1 ->].
  { destruct Hdata as [->|(es & blk & Hblk & _)]; [done|].
    destruct (mpData o) as [d|]; [|done]. simpl in Hblk.
    unfold free. by rewrite decide_True by (apply elem_of_dom; by eexists). }
  cbn [mbind option_bind].
  destruct (malloc m1 r (mnMaxSizeBytes o)) as [[a'|] m2]; done.
Qed.

(** [xGArr_Add] is defined on every valid instance, given an item of
    [mnItemSizeBytes] bytes or more. *)
Lemma Add_defined m a o es src r :
  valid m a o es →
  mnItemSizeBytes o ≤ Z.of_nat (length src) →
  is_Some (xGArr_Add m (Some a) src r).
Proof.
  intros ((Ho & Hlive & Hgeo & Hst) & Hcap & Hsz) Hsrc. pose proof Hgeo as [].
  assert (∀ m1 o1, geometry o1 → stores m1 o1 es →
            mnItemSizeBytes o1 = mnItemSizeBytes o →
            (mnNumItems o1 + 1) * mnItemSizeBytes o1 ≤ mnMaxSizeBytes o1 →
            is_Some (xGArr_Add_store m1 a o1 src)) as Hstore.
  { intros m1 o1 Hgeo1 (blk & Hblk & Hlen & _) Hi1 Hroom.
    destruct (geometry_used_range o1 Hgeo1) as [Hmul Hpos].
    unfold xGArr_Add_store.
    destruct (mpData o1) as [d|] eqn:Hd; [|done].
    cbn [mbind option_bind]. simpl in Hblk. simpl. rewrite Hblk.
    cbn [mbind option_bind]. rewrite Hmul.
    unfold memcpy. rewrite decide_True by lia. done. }
  unfold xGArr_Add.
  rewrite (Verify_live m a o) by done.
  cbn [mbind option_bind]. rewrite Ho. cbn [mbind option_bind].
  case_decide as Hfull.
  - destruct (Add_grow_spec m r o es Hgeo Hst Hfull)
      as (Heq & _ & [[-> _]|(o1 & m1 & -> & Hgeo1 & Hst1 & _ & Hn & _ & Hi
                              & Hc & Hs & _)]); [done|].
    cbn [mbind option_bind].
    destruct (Hstore m1 o1) as [m2 ->]; [done|done|done|nia|done].
  - cbn [mbind option_bind].
    destruct (Hstore m o) as [m2 ->]; [done|done|done|nia|done].
Qed.

End Invariant.

(** ** Properties of the operations *)

Section Properties.

Context {signature : Signature}.

Implicit Types (m : memory) (a : addr) (o : xGrowableArray).
Implicit Types (es : list (list byte)) (src dest : list byte).

(** C7. At the end of the sequence ([mnNext >= mnNumItems]) of a live
    instance [xGArr_NextItem] returns [LastItem] and leaves the memory,
    hence count, capacity, cursor and stored data, and the output buffer as
    they were; so does every further call, however many follow. *)
Theorem NextItem_exhausted_idempotent m a o (dests : list (list byte)) :
  structs m !! a = Some o →
  a ∉ freed m →
  mSignature o = xGArr_kSignature →
  mnNext o >= mnNumItems o →
  (∀ dest, xGArr_NextItem m (Some a) dest
           = Some (xGArr_tErr_LastItem, dest, m))
  ∧ run m (Some a) (NextItem <$> dests)
    = Some ((λ dest, (xGArr_tErr_LastItem, Some dest)) <$> dests, m).
Proof.
  intros Ho Hlive Hsig Hend. split.
  - intros dest. by apply (NextItem_last m a o).
  - induction dests as [|dest dests IH]; [done|].
    cbn [fmap list_fmap run perform].
    rewrite (NextItem_last m a o) by done.
    cbn [mbind option_bind]. fold (fmap NextItem dests). rewrite IH. done.
Qed.

(** C3. On a live, full instance ([mnNumItems = mnMaxNumItems]), when
    [malloc] refuses the doubled storage, [xGArr_Add] returns
    [AllocationFailed] and the memory is the one before the call: count,
    capacity, storage and stored bytes are untouched. *)
Theorem Add_growth_failure_atomic m a o src r :
  structs m !! a = Some o →
  a ∉ freed m →
  mSignature o = xGArr_kSignature →
  mnNumItems o = mnMaxNumItems o →
  (malloc m r (Int.mul (mnMaxSizeBytes o) 2)).1 = NULL →
  xGArr_Add m (Some a) src r = Some (xGArr_tErr_AllocationFailed, m).
Proof.
  intros Ho Hlive Hsig Hfull Hfail. unfold xGArr_Add.
  rewrite (Verify_live m a o) by done. cbn [mbind option_bind].
  rewrite Ho. cbn [mbind option_bind].
  rewrite decide_True by lia. unfold xGArr_Add_grow.
  destruct (malloc m r _) as [[a'|] m1]; [done|]. done.
Qed.

(** C5, amended. A handle that [xGArr_Verify] turns down, [NULL] with
    [InvalidObject] or a struct that was not handed back and whose signature
    is not [xGArr_kSignature] with [InvalidSignature], is turned down with
    that error by
    [xGArr_Delete], [xGArr_Add], [xGArr_ResetIterator], [xGArr_NextItem] and
    [xGArr_Clear], and each of them leaves the memory, the handle variable
    and the output buffer untouched; so does [xGArr_Delete] of a null
    pointer to a handle. *)
Theorem invalid_handle_rejected m (this : ptr) e :
  rejects m this e →
  xGArr_Verify m this = Some e
  ∧ xGArr_Delete m (Some this) = Some (e, Some this, m)
  ∧ xGArr_Delete m None = Some (xGArr_tErr_InvalidObject, None, m)
  ∧ (∀ src r, xGArr_Add m this src r = Some (e, m))
  ∧ xGArr_ResetIterator m this = Some (e, m)
  ∧ (∀ dest, xGArr_NextItem m this dest = Some (e, dest, m))
  ∧ (∀ r, xGArr_Clear m this r = Some (e, m)).
Proof.
  intros Hrej.
  assert (xGArr_Verify m this = Some e ∧ e ≠ xGArr_tErr_NoErr) as [Hv Hne].
  { destruct Hrej as [|a o Ho Hlive Hsig]; [done|].
    unfold xGArr_Verify. rewrite decide_False by done. rewrite Ho. simpl.
    by rewrite decide_True by congruence. }
  unfold xGArr_Delete, xGArr_Add, xGArr_ResetIterator, xGArr_NextItem,
    xGArr_Clear.
  rewrite Hv. cbn [mbind option_bind].
  destruct Hrej; done.
Qed.

(** C10. A successful [xGArr_Delete] trashes the signature of the struct,
    hands it back and stores [NULL] in the caller's handle variable: every
    later call through that variable, a second [xGArr_Delete] included,
    returns [InvalidObject] and changes nothing. *)
Theorem Delete_nulls_handle m (h : ptr) v m' :
  xGArr_Delete m (Some h) = Some (xGArr_tErr_NoErr, v, m') →
  v = Some NULL
  ∧ (∃ a o, h = Some a ∧ structs m !! a = Some o
       ∧ structs m' !! a = Some (set_mSignature 1 o) ∧ a ∈ freed m')
  ∧ xGArr_Delete m' v = Some (xGArr_tErr_InvalidObject, v, m')
  ∧ (∀ src r, xGArr_Add m' NULL src r
              = Some (xGArr_tErr_InvalidObject, m'))
  ∧ xGArr_ResetIterator m' NULL = Some (xGArr_tErr_InvalidObject, m')
  ∧ (∀ dest, xGArr_NextItem m' NULL dest
             = Some (xGArr_tErr_InvalidObject, dest, m'))
  ∧ (∀ r, xGArr_Clear m' NULL r = Some (xGArr_tErr_InvalidObject, m')).
Proof.
  intros Hrun. unfold xGArr_Delete in Hrun.
  destruct (xGArr_Verify m h) as [e|] eqn:Hv; [|done].
  cbn [mbind option_bind] in Hrun.
  destruct e, h as [a|]; try done.
  destruct (structs m !! a) as [o|] eqn:Ho; [|done].
  cbn [mbind option_bind] in Hrun.
  destruct (free _ (mpData o)) as [m2|] eqn:Hf2; [|done].
  cbn [mbind option_bind] in Hrun.
  destruct (free_struct m2 (Some a)) as [m3|] eqn:Hf3; [|done].
  cbn [mbind option_bind] in Hrun. injection Hrun as <- <-.
  split; [done|]. split; [|done].
  exists a, o. split; [done|]. split; [done|].
  assert (structs m2 = <[a := set_mSignature 1 o]> (structs m)) as Hs2.
  { unfold free in Hf2. destruct (mpData o) as [d|].
    - case_decide; simplify_eq; done.
    - by simplify_eq. }
  unfold free_struct in Hf3. case_decide; simplify_eq; simpl.
  rewrite Hs2. split; [apply lookup_insert_eq|].
  apply elem_of_union. left. by apply elem_of_singleton.
Qed.

(** C6. The iterator is a live view: when [xGArr_Add] succeeds in the
    middle of a traversal, with the cursor anywhere in the sequence, going
    on with [xGArr_NextItem] yields the items that were left, then the new
    item, each copied to the front of the output buffer, and only then
    [LastItem]. *)
Theorem iterator_live_view m a o es src r m1 dest :
  holds m a o es →
  mnItemSizeBytes o ≤ Z.of_nat (length dest) →
  xGArr_Add m (Some a) src r = Some (xGArr_tErr_NoErr, m1) →
  ∃ m2,
    run m1 (Some a)
      (replicate (S (S (Z.to_nat (mnNumItems o - mnNext o)))) (NextItem dest))
    = Some (((λ e, (xGArr_tErr_NoErr,
                    Some (e ++ drop (Z.to_nat (mnItemSizeBytes o)) dest)))
               <$> (drop (Z.to_nat (mnNext o)) es
                    ++ [take (Z.to_nat (mnItemSizeBytes o)) src]))
            ++ [(xGArr_tErr_LastItem, Some dest)], m2).
Proof.
  intros Hh Hdest Hadd.
  pose proof Hh as (_ & _ & [] & _ & _ & _ & Hnum & _).
  destruct (Add_spec m a o es src r _ m1 Hh Hadd)
    as [(? & _)|(_ & o1 & Hh1 & Hn1 & Hx1 & Hi1 & _)]; [done|].
  destruct (traverse_spec (S (Z.to_nat (mnNumItems o - mnNext o)))
              m1 a o1 _ dest Hh1) as (m2 & o2 & Hrun & _); [lia|lia|].
  exists m2. rewrite Hrun, Hi1, Hx1.
  by rewrite drop_app_le by lia.
Qed.

(** C1. After a successful [xGArr_New] with sizes in [int], [N] successful
    [xGArr_Add]s of items of [inSize] bytes leave [mnNumItems = N], and
    [xGArr_ResetIterator] followed by [N + 1] calls of [xGArr_NextItem]
    yields the [N] items in the order they were added, byte for byte, and
    then [LastItem]. *)
Theorem Add_then_traverse m0 (h : ptr) inSize inInitialNumItems r1 r2 a m1
    (adds : list (list byte * malloc_reply)) rs m2 dest :
  0 < inSize ≤ Int.INT_MAX →
  0 < inInitialNumItems ≤ Int.INT_MAX →
  xGArr_New m0 (Some h) inSize inInitialNumItems r1 r2
  = Some (xGArr_tErr_NoErr, Some (Some a), m1) →
  Forall (λ x, Z.of_nat (length x.1) = inSize) adds →
  run m1 (Some a) ((λ x, Add x.1 x.2) <$> adds) = Some (rs, m2) →
  Forall (λ x, x.1 = xGArr_tErr_NoErr) rs →
  Z.of_nat (length dest) = inSize →
  ∃ o m3,
    structs m2 !! a = Some o
    ∧ mnNumItems o = Z.of_nat (length adds)
    ∧ run m2 (Some a)
        (ResetIterator :: replicate (S (length adds)) (NextItem dest))
      = Some ((xGArr_tErr_NoErr, None)
              :: ((λ x, (xGArr_tErr_NoErr, Some x.1)) <$> adds)
              ++ [(xGArr_tErr_LastItem, Some dest)], m3).
Proof.
  intros HE HC Hnew Hlen Hrun Hok Hdest.
  destruct (New_spec _ _ _ _ _ _ _ _ _ HE HC Hnew)
    as [(? & _)|(_ & a' & o0 & [= <-] & Hh0 & Hn0 & Hx0 & Hc0 & Hi0 & _)];
    [done|].
  destruct (run_adds adds m1 a o0 [] rs m2 Hh0 Hrun Hok)
    as (o & Hh & Hn & Hx & Hi).
  pose proof Hh as (Ho & Hlive & [] & _).
  set (o' := set_mnNext 0 o).
  assert (holds (store_struct m2 a o') a o' ([] ++ (take (Z.to_nat (mnItemSizeBytes o0)) <$> adds.*1)))
    as Hh' by (apply holds_set_mnNext; [done|lia]).
  destruct (traverse_spec (length adds) _ a o' _ dest Hh')
    as (m3 & o3 & Htr & _).
  { simpl. lia. }
  { simpl. lia. }
  exists o, m3. split; [done|]. split; [lia|].
  cbn [run perform mbind option_bind].
  rewrite (ResetIterator_live m2 a o) by done.
  cbn [mbind option_bind]. fold o'. rewrite Htr.
  cbn [mbind option_bind]. do 3 f_equal. f_equal.
  simpl. rewrite drop_0, <- !list_fmap_compose.
  apply Forall_fmap_ext_1. eapply Forall_impl; [exact Hlen|].
  intros [x r] Hx'. simpl in *. f_equal. f_equal.
  rewrite take_ge by lia. rewrite drop_ge by lia. by rewrite app_nil_r.
Qed.

(** C2. After a successful [xGArr_New] with sizes in [int] and any calls
    that include [k] growth events, the capacity is
    [inInitialNumItems * 2 ^ k]; and whenever the test that opens the
    growth block of [xGArr_Add] holds, count equals capacity and the
    storage is exactly capacity items long, so that the division that
    recomputes the capacity is exact. *)
Theorem growth_doubles_capacity m0 (h : ptr) inSize inInitialNumItems r1 r2 a
    m1 cs rs m2 :
  0 < inSize ≤ Int.INT_MAX →
  0 < inInitialNumItems ≤ Int.INT_MAX →
  xGArr_New m0 (Some h) inSize inInitialNumItems r1 r2
  = Some (xGArr_tErr_NoErr, Some (Some a), m1) →
  run m1 (Some a) cs = Some (rs, m2) →
  ∃ o, structs m2 !! a = Some o
    ∧ mnItemSizeBytes o = inSize
    ∧ mnMaxNumItems o
      = inInitialNumItems * 2 ^ Z.of_nat (growth_events m1 (Some a) cs)
    ∧ (is_full m2 (Some a) = true →
       mnNumItems o = mnMaxNumItems o
       ∧ mnMaxSizeBytes o = mnMaxNumItems o * mnItemSizeBytes o).
Proof.
  intros HE HC Hnew Hrun.
  destruct (New_spec _ _ _ _ _ _ _ _ _ HE HC Hnew)
    as [(? & _)|(_ & a' & o0 & [= <-] & Hh0 & Hn0 & Hx0 & Hc0 & Hi0 & _)];
    [done|].
  destruct (run_survives cs m1 a o0 rs m2 (holds_survives _ _ _ _ Hh0) Hrun)
    as (o & Hs & Hi & Hc).
  pose proof Hs as (Ho & Hlive & [] & _).
  exists o. split; [done|]. split; [congruence|]. split; [congruence|].
  unfold is_full. simpl. rewrite Ho. intros Hfull%bool_decide_eq_true.
  nia.
Qed.

(** C4, amended. After a successful [xGArr_New] whose sizes are positive
    and whose product [inInitialNumItems * inSize] fits in [int], every
    sequence of [Add], [ResetIterator], [NextItem] and successful [Clear]
    calls leaves an instance that satisfies the invariants of the data
    model. *)
Theorem data_model_invariant m0 (h : ptr) inSize inInitialNumItems r1 r2 a m1
    cs rs m2 :
  0 < inSize →
  0 < inInitialNumItems →
  inInitialNumItems * inSize ≤ Int.INT_MAX →
  xGArr_New m0 (Some h) inSize inInitialNumItems r1 r2
  = Some (xGArr_tErr_NoErr, Some (Some a), m1) →
  run m1 (Some a) cs = Some (rs, m2) →
  clears_succeed m1 (Some a) cs →
  data_model m2 a.
Proof.
  intros HE HC Hfit Hnew Hrun Hok.
  assert (inSize ≤ Int.INT_MAX ∧ inInitialNumItems ≤ Int.INT_MAX)
    as [HE' HC'] by nia.
  destruct (New_spec _ _ _ _ _ _ _ _ _ (conj HE HE') (conj HC HC') Hnew)
    as [(? & _)|(_ & a' & o0 & [= <-] & Hh0 & Hn0 & Hx0 & Hc0 & Hi0 & Hs0)];
    [done|].
  assert (valid m1 a o0 []) as Hv0.
  { split; [done|]. split; [lia|]. rewrite Hs0, Hc0, Hi0.
    apply wrap_in_range. unfold Int.in_range, Int.INT_MIN, Int.INT_MAX in *.
    nia. }
  destruct (run_valid cs m1 a o0 [] rs m2 Hv0 Hrun Hok)
    as (o & es & (Ho & Hlive & [] & blk & Hblk & Hlen & _) & Hcap & Hsz).
  exists o, blk. repeat split; try done; try lia; nia.
Qed.

(** C8. On a valid instance [xGArr_Clear] succeeds whenever the allocator
    grants the block, and a successful [xGArr_Clear] leaves count and
    cursor at 0, the capacity and the item size as they were and a storage
    block of [capacity * elementSize] bytes; [xGArr_ResetIterator] and one
    [xGArr_NextItem] then return [LastItem] at once. *)
Theorem Clear_success m a o es r m' dest :
  valid m a o es →
  xGArr_Clear m (Some a) r = Some (xGArr_tErr_NoErr, m') →
  (∀ g, ∃ m'', xGArr_Clear m (Some a) (Some g)
               = Some (xGArr_tErr_NoErr, m''))
  ∧ ∃ o' blk,
      structs m' !! a = Some o'
      ∧ mnNumItems o' = 0 ∧ mnNext o' = 0
      ∧ mnMaxNumItems o' = mnMaxNumItems o
      ∧ mnItemSizeBytes o' = mnItemSizeBytes o
      ∧ load_block m' (mpData o') = Some blk
      ∧ Z.of_nat (length blk) = mnMaxNumItems o * mnItemSizeBytes o
      ∧ valid m' a o' []
      ∧ run m' (Some a) [ResetIterator; NextItem dest]
        = Some ([(xGArr_tErr_NoErr, None); (xGArr_tErr_LastItem, Some dest)],
                store_struct m' a (set_mnNext 0 o')).
Proof.
  intros (Hh & Hcap & Hsz) Hclear.
  pose proof (holds_survives _ _ _ _ Hh) as Hs. split.
  - intros g. destruct (Clear_defined m a o (Some g) Hs) as [[e m''] Hdef].
    destruct (Clear_spec _ _ _ _ _ _ Hs Hdef)
      as (_ & _ & _ & _ & _ & _ & [(-> & _)|(_ & ? & _)]); [|done].
    by exists m''.
  - destruct (Clear_spec _ _ _ _ _ _ Hs Hclear)
      as (o' & Ho' & Hc & Hb & Hi & _ & [(_ & _ & Hn & Hx & Hh')|(? & _)]);
      [|done].
    pose proof Hh' as (_ & Hlive' & [] & blk & Hblk & Hlen & _).
    exists o', blk.
    do 7 (split; [done || lia|]).
    split; [split; [done|lia]|].
    cbn [run perform mbind option_bind].
    rewrite (ResetIterator_live m' a o') by done.
    cbn [mbind option_bind].
    erewrite NextItem_last;
      [done|apply lookup_insert_eq|done|done|simpl; lia].
Qed.

(** C9. On a valid instance, when the allocator refuses the fresh block,
    [xGArr_Clear] returns [AllocationFailed] with the old storage released
    and [mpData] null, count, cursor and capacity as before the call: the
    instance still passes [xGArr_Verify] but no longer satisfies the data
    model. *)
Theorem Clear_failure_destructive m a o es :
  valid m a o es →
  ∃ m', xGArr_Clear m (Some a) None
        = Some (xGArr_tErr_AllocationFailed, m')
    ∧ structs m' !! a = Some (set_mpData NULL o)
    ∧ (∀ d, mpData o = Some d → blocks m' !! d = None)
    ∧ (∃ d, mpData o = Some d ∧ is_Some (blocks m !! d))
    ∧ xGArr_Verify m' (Some a) = Some xGArr_tErr_NoErr
    ∧ ¬ data_model m' a.
Proof.
  intros (Hh & Hcap & Hsz).
  pose proof (holds_survives _ _ _ _ Hh) as Hs.
  pose proof Hh as (Ho & Hlive & [] & blk & Hblk & _).
  destruct (Clear_defined m a o None Hs) as [[e m'] Hdef].
  destruct (Clear_spec _ _ _ _ _ _ Hs Hdef)
    as (o' & Ho' & _ & _ & _ & _ & [(_ & ? & _)|(-> & _ & -> & Hgone)]);
    [done|].
  exists m'. split; [done|]. split; [done|]. split; [|split; [|split]].
  - intros d Hd. apply not_elem_of_dom. by apply Hgone.
  - destruct (mpData o) as [d|]; [|done]. exists d. split; [done|].
    by eexists.
  - apply (Verify_live m' a (set_mpData NULL o)); [done| |done].
    by rewrite (Clear_freed _ _ _ _ _ Hdef).
  - intros (o1 & blk1 & Ho1 & Hblk1 & _). rewrite Ho' in Ho1.
    injection Ho1 as <-. done.
Qed.

End Properties.

(** ** The properties on concrete inputs *)

Section Instances.

Import Example.

#[local] Existing Instance signature.

Ltac concrete := vm_compute; done.

Ltac concrete_holds blk :=
  split; [concrete|];
  split; [concrete|];
  split; [split; concrete|];
  exists blk; split; [concrete|];
  split; [concrete|]; split; [concrete|];
  split; [repeat constructor|concrete].

(** [xGArr_New (&h, 4, 2)], three items added, then a full traversal. *)
Lemma Add_then_traverse_witness :
  ∃ o m3,
    structs grown !! 1%positive = Some o
    ∧ mnNumItems o = 3
    ∧ run grown (Some 1%positive)
        (ResetIterator :: replicate 4 (NextItem out))
      = Some ([(xGArr_tErr_NoErr, None);
               (xGArr_tErr_NoErr, Some item1);
               (xGArr_tErr_NoErr, Some item2);
               (xGArr_tErr_NoErr, Some item3);
               (xGArr_tErr_LastItem, Some out)], m3).
Proof.
  apply (Add_then_traverse empty_memory NULL 4 2 zeros zeros 1%positive
           created three_adds
           (replicate 3 (xGArr_tErr_NoErr, None)) grown out).
  - concrete.
  - concrete.
  - concrete.
  - repeat constructor.
  - concrete.
  - repeat constructor.
  - concrete.
Defined.

(** The third of three [Add]s into a capacity of two is the one growth
    event; the capacity is then [2 * 2 ^ 1]. *)
Lemma growth_doubles_capacity_witness :
  growth_events created (Some 1%positive)
    [Add item1 zeros; Add item2 zeros; Add item3 zeros] = 1%nat
  ∧ ∃ o, structs grown !! 1%positive = Some o
      ∧ mnItemSizeBytes o = 4
      ∧ mnMaxNumItems o
        = 2 * 2 ^ Z.of_nat
                (growth_events created (Some 1%positive)
                   [Add item1 zeros; Add item2 zeros; Add item3 zeros])
      ∧ (is_full grown (Some 1%positive) = true →
         mnNumItems o = mnMaxNumItems o
         ∧ mnMaxSizeBytes o = mnMaxNumItems o * mnItemSizeBytes o).
Proof.
  split; [concrete|].
  apply (growth_doubles_capacity empty_memory NULL 4 2 zeros zeros 1%positive
           created [Add item1 zeros; Add item2 zeros; Add item3 zeros]
           (replicate 3 (xGArr_tErr_NoErr, None)) grown).
  - concrete.
  - concrete.
  - concrete.
  - concrete.
Defined.

(** A third [Add] into a full capacity of two, the allocator refusing. *)
Lemma Add_growth_failure_atomic_witness :
  xGArr_Add filled (Some 1%positive) item3 None
  = Some (xGArr_tErr_AllocationFailed, filled).
Proof.
  apply (Add_growth_failure_atomic filled 1%positive (struct_in filled)).
  - concrete.
  - concrete.
  - concrete.
  - concrete.
  - concrete.
Defined.

(** The product [4 * 2] fits: the invariants hold after adds, a traversal
    step and a [Clear]. *)
Lemma data_model_invariant_witness :
  data_model
    (after [Add item1 zeros; Add item2 zeros; Add item3 zeros;
            ResetIterator; NextItem out; Clear zeros; Add item2 zeros])
    1%positive.
Proof.
  apply (data_model_invariant empty_memory NULL 4 2 zeros zeros 1%positive
           created
           [Add item1 zeros; Add item2 zeros; Add item3 zeros;
            ResetIterator; NextItem out; Clear zeros; Add item2 zeros]
           [(xGArr_tErr_NoErr, None); (xGArr_tErr_NoErr, None);
            (xGArr_tErr_NoErr, None); (xGArr_tErr_NoErr, None);
            (xGArr_tErr_NoErr, Some item1); (xGArr_tErr_NoErr, None);
            (xGArr_tErr_NoErr, None)]).
  - concrete.
  - concrete.
  - concrete.
  - concrete.
  - concrete.
  - vm_compute. tauto.
Defined.

(** A live instance whose signature was overwritten: every call returns
    [InvalidSignature] and changes nothing. *)
Lemma invalid_handle_rejected_witness :
  xGArr_Verify Scenario.overwritten (Some 1%positive)
  = Some xGArr_tErr_InvalidSignature
  ∧ xGArr_Delete Scenario.overwritten (Some (Some 1%positive))
    = Some (xGArr_tErr_InvalidSignature, Some (Some 1%positive),
            Scenario.overwritten)
  ∧ xGArr_Delete Scenario.overwritten None
    = Some (xGArr_tErr_InvalidObject, None, Scenario.overwritten)
  ∧ (∀ src r, xGArr_Add Scenario.overwritten (Some 1%positive) src r
              = Some (xGArr_tErr_InvalidSignature, Scenario.overwritten))
  ∧ xGArr_ResetIterator Scenario.overwritten (Some 1%positive)
    = Some (xGArr_tErr_InvalidSignature, Scenario.overwritten)
  ∧ (∀ dest, xGArr_NextItem Scenario.overwritten (Some 1%positive) dest
             = Some (xGArr_tErr_InvalidSignature, dest, Scenario.overwritten))
  ∧ (∀ r, xGArr_Clear Scenario.overwritten (Some 1%positive) r
          = Some (xGArr_tErr_InvalidSignature, Scenario.overwritten)).
Proof.
  apply (invalid_handle_rejected Scenario.overwritten (Some 1%positive)
           xGArr_tErr_InvalidSignature).
  apply (rejects_signature Scenario.overwritten 1%positive
           (struct_in Scenario.overwritten)).
  - concrete.
  - concrete.
  - concrete.
Defined.

(** One of two items traversed, a third one added (with growth): the
    traversal goes on with the second and the third item. *)
Lemma iterator_live_view_witness :
  ∃ m2,
    run (after [Add item1 zeros; Add item2 zeros; ResetIterator;
                NextItem out; Add item3 zeros])
      (Some 1%positive) (replicate 3 (NextItem out))
    = Some ([(xGArr_tErr_NoErr, Some item2);
             (xGArr_tErr_NoErr, Some item3);
             (xGArr_tErr_LastItem, Some out)], m2).
Proof.
  apply (iterator_live_view midway 1%positive (struct_in midway)
           [item1; item2] item3 zeros
           (after [Add item1 zeros; Add item2 zeros; ResetIterator;
                   NextItem out; Add item3 zeros]) out).
  - concrete_holds (item1 ++ item2).
  - concrete.
  - concrete.
Defined.

Lemma NextItem_exhausted_idempotent_witness :
  (∀ dest, xGArr_NextItem created (Some 1%positive) dest
           = Some (xGArr_tErr_LastItem, dest, created))
  ∧ run created (Some 1%positive) (NextItem <$> [out; item1; out])
    = Some ((λ dest, (xGArr_tErr_LastItem, Some dest))
              <$> [out; item1; out], created).
Proof.
  apply (NextItem_exhausted_idempotent created 1%positive
           (struct_in created)).
  - concrete.
  - concrete.
  - concrete.
  - concrete.
Defined.

Lemma grown_valid :
  valid grown 1%positive (struct_in grown) [item1; item2; item3].
Proof.
  split; [concrete_holds (item1 ++ item2 ++ item3 ++ [Byte.x00; Byte.x00;
                                                        Byte.x00; Byte.x00])|].
  split; concrete.
Qed.

(** [Clear] after three items and one growth: the capacity stays 4. *)
Lemma Clear_success_witness :
  (∀ g, ∃ m'', xGArr_Clear grown (Some 1%positive) (Some g)
               = Some (xGArr_tErr_NoErr, m''))
  ∧ ∃ o' blk,
      structs (after (((λ x, Add x.1 x.2) <$> three_adds) ++ [Clear zeros]))
        !! 1%positive = Some o'
      ∧ mnNumItems o' = 0 ∧ mnNext o' = 0
      ∧ mnMaxNumItems o' = 4
      ∧ mnItemSizeBytes o' = 4
      ∧ load_block
          (after (((λ x, Add x.1 x.2) <$> three_adds) ++ [Clear zeros]))
          (mpData o') = Some blk
      ∧ Z.of_nat (length blk) = 4 * 4
      ∧ valid (after (((λ x, Add x.1 x.2) <$> three_adds) ++ [Clear zeros]))
          1%positive o' []
      ∧ run (after (((λ x, Add x.1 x.2) <$> three_adds) ++ [Clear zeros]))
          (Some 1%positive) [ResetIterator; NextItem out]
        = Some ([(xGArr_tErr_NoErr, None); (xGArr_tErr_LastItem, Some out)],
                store_struct
                  (after (((λ x, Add x.1 x.2) <$> three_adds)
                          ++ [Clear zeros]))
                  1%positive (set_mnNext 0 o')).
Proof.
  apply (Clear_success grown 1%positive (struct_in grown)
           [item1; item2; item3] zeros
           (after (((λ x, Add x.1 x.2) <$> three_adds) ++ [Clear zeros]))
           out).
  - exact grown_valid.
  - concrete.
Defined.

(** [Clear] after three items, the allocator refusing. *)
Lemma Clear_failure_destructive_witness :
  ∃ m', xGArr_Clear grown (Some 1%positive) None
        = Some (xGArr_tErr_AllocationFailed, m')
    ∧ structs m' !! 1%positive = Some (set_mpData NULL (struct_in grown))
    ∧ (∀ d, mpData (struct_in grown) = Some d → blocks m' !! d = None)
    ∧ (∃ d, mpData (struct_in grown) = Some d
            ∧ is_Some (blocks grown !! d))
    ∧ xGArr_Verify m' (Some 1%positive) = Some xGArr_tErr_NoErr
    ∧ ¬ data_model m' 1%positive.
Proof.
  apply (Clear_failure_destructive grown 1%positive (struct_in grown)
           [item1; item2; item3]).
  exact grown_valid.
Defined.

(** [xGArr_Delete] through a handle variable on a fresh instance. *)
Lemma Delete_nulls_handle_witness :
  Some NULL = Some NULL
  ∧ (∃ a o, Some 1%positive = Some a ∧ structs created !! a = Some o
       ∧ structs destroyed !! a = Some (set_mSignature 1 o)
       ∧ a ∈ freed destroyed)
  ∧ xGArr_Delete destroyed (Some NULL)
    = Some (xGArr_tErr_InvalidObject, Some NULL, destroyed)
  ∧ (∀ src r, xGArr_Add destroyed NULL src r
              = Some (xGArr_tErr_InvalidObject, destroyed))
  ∧ xGArr_ResetIterator destroyed NULL
    = Some (xGArr_tErr_InvalidObject, destroyed)
  ∧ (∀ dest, xGArr_NextItem destroyed NULL dest
             = Some (xGArr_tErr_InvalidObject, dest, destroyed))
  ∧ (∀ r, xGArr_Clear destroyed NULL r
          = Some (xGArr_tErr_InvalidObject, destroyed)).
Proof.
  apply (Delete_nulls_handle created (Some 1%positive) (Some NULL) destroyed).
  concrete.
Defined.

End Instances.

(** C4, as stated, fails: [xGArr_New (&h, 4, 1073741825)] computes the
    storage size [1073741825 * 4] in [int], where it wraps to 4, and succeeds
    with a capacity of 1073741825 items over a block of 4 bytes.  This holds
    whatever the value of [xGArr_kSignature] is. *)
Lemma data_model_invariant_overflow :
  ¬ ∃ signature : Signature,
      ∀ m0 (h : ptr) inSize inInitialNumItems r1 r2 a m1 cs rs m2,
        0 < inSize ≤ Int.INT_MAX →
        0 < inInitialNumItems ≤ Int.INT_MAX →
        xGArr_New m0 (Some h) inSize inInitialNumItems r1 r2
        = Some (xGArr_tErr_NoErr, Some (Some a), m1) →
        run m1 (Some a) cs = Some (rs, m2) →
        clears_succeed m1 (Some a) cs →
        data_model m2 a.
Proof.
  intros [signature Hclaim].
  pose (m1 := default empty_memory
                (snd <$> xGArr_New empty_memory (Some NULL) 4 1073741825
                           Example.zeros Example.zeros)).
  destruct (Hclaim empty_memory NULL 4 1073741825 Example.zeros Example.zeros
              1%positive m1 [] [] m1)
    as (o & blk & Ho & Hblk & _ & _ & _ & Hlen).
  - vm_compute. done.
  - vm_compute. done.
  - vm_compute. done.
  - done.
  - done.
  - vm_compute in Ho. injection Ho as <-.
    vm_compute in Hblk. injection Hblk as <-.
    vm_compute in Hlen. done.
Qed.

(** ** Further properties of the operations *)

(** X1. [xGArr_GetErrorString] never reads outside [xGArr_ksaErrorStrings]:
    every [int] code gets a string of the table, a code below 0 or from
    [xGArr_knNumErrorCodes] on gets "Invalid error code.", and the six error
    kinds get six different strings. *)
Theorem GetErrorString_table :
  (∀ ieCode, ∃ s, xGArr_GetErrorString ieCode = Some s
       ∧ s ∈ xGArr_ksaErrorStrings
       ∧ (ieCode < 0 ∨ xGArr_knNumErrorCodes ≤ ieCode →
          s = "Invalid error code."%string))
  ∧ (∀ e1 e2, xGArr_GetErrorString (xGArr_tErr_code e1)
              = xGArr_GetErrorString (xGArr_tErr_code e2) → e1 = e2).
Proof.
  split.
  - intros z. unfold xGArr_GetErrorString, xGArr_knNumErrorCodes.
    case_decide as Hout.
    + eexists. split; [reflexivity|]. split; [|done].
      vm_compute. repeat constructor.
    + assert (z = 0 ∨ z = 1 ∨ z = 2 ∨ z = 3 ∨ z = 4 ∨ z = 5)
        as [->|[->|[->|[->|[->| ->]]]]] by lia;
        (eexists; split; [reflexivity|]; split; [|lia]);
        rewrite list_elem_of_In; simpl; tauto.
  - intros [] []; vm_compute; congruence.
Qed.

Section Ownership.

Context {signature : Signature}.

Implicit Types (m : memory) (a : addr) (o : xGrowableArray).

Lemma Verify_NoErr m a :
  xGArr_Verify m (Some a) = Some xGArr_tErr_NoErr →
  ∃ o, structs m !! a = Some o ∧ mSignature o = xGArr_kSignature
    ∧ (a ∉ freed m).
Proof.
  unfold xGArr_Verify. case_decide as Hlive; [done|].
  destruct (structs m !! a) as [o|]; [|done]. simpl.
  case_decide as Hsig; [done|]. intros _. exists o. split; [done|].
  split; [congruence|done].
Qed.

Ltac solve_map :=
  apply map_eq; intros ?;
  repeat (rewrite lookup_delete || rewrite lookup_insert);
  repeat case_decide; simplify_eq; try done.

Lemma Add_store_frame m a o src m' :
  xGArr_Add_store m a o src = Some m' →
  ∃ d, mpData o = Some d ∧ is_Some (blocks m !! d)
    ∧ delete d (blocks m') = delete d (blocks m)
    ∧ freed m' = freed m
    ∧ (structs m' !! a ≫= mpData) = Some d
    ∧ (∀ a', a' ≠ a → structs m' !! a' = structs m !! a').
Proof.
  unfold xGArr_Add_store. intros Hrun.
  destruct (mpData o) as [d|] eqn:Hd; [|done]. simpl in Hrun.
  destruct (blocks m !! d) as [blk|] eqn:Hblk; [|done]. simpl in Hrun.
  destruct (memcpy _ _ _ _ _) as [blk'|]; [|done]. simpl in Hrun.
  injection Hrun as <-. exists d. simpl.
  split; [done|]. split; [done|]. split; [apply delete_insert_eq|].
  split; [done|]. split.
  - rewrite lookup_insert_eq. simpl. done.
  - intros a' Hne. by rewrite lookup_insert_ne.
Qed.

Lemma Add_grow_frame m r o o1 m1 :
  xGArr_Add_grow m r o = Some (Some (o1, m1)) →
  ∃ d a', mpData o = Some d ∧ blocks m !! a' = None
    ∧ mpData o1 = Some a'
    ∧ delete a' (blocks m1) = delete d (blocks m)
    ∧ structs m1 = structs m ∧ freed m1 = freed m.
Proof.
  unfold xGArr_Add_grow. intros Hrun.
  destruct (malloc m r _) as [[a'|] m0] eqn:Hm; [|done].
  assert (a' = fresh_addr m ∧ ∃ blk, m0 = store_block m a' blk) as [-> [g ->]].
  { unfold malloc in Hm. destruct r; [|done].
    case_decide; [|done]. injection Hm as <- <-. eauto. }
  pose proof (fresh_addr_blocks m) as Hfresh.
  set (a' := fresh_addr m) in *.
  destruct (load_block _ (Some a')) as [new|]; [|done].
  cbn [mbind option_bind] in Hrun.
  destruct (mpData o) as [d|] eqn:Hd; [|done].
  destruct (load_block _ (Some d)) as [old|] eqn:Hold; [|done].
  cbn [mbind option_bind] in Hrun.
  destruct (memcpy new 0 old 0 _) as [new'|]; [|done].
  cbn [mbind option_bind] in Hrun.
  destruct (free _ (Some d)) as [m2|] eqn:Hfree; [|done].
  cbn [mbind option_bind] in Hrun.
  destruct (Int.div _ _) as [n|]; [|done].
  cbn [mbind option_bind] in Hrun. injection Hrun as <- <-.
  exists d, a'. unfold free in Hfree. simpl in Hfree.
  case_decide; [|done]. injection Hfree as <-. simpl.
  repeat split; try done. solve_map.
Qed.

Lemma Add_frame m a src r e m' :
  xGArr_Add m (Some a) src r = Some (e, m') →
  foreign_blocks m' a = foreign_blocks m a
  ∧ freed m' = freed m
  ∧ (∀ a', a' ≠ a → structs m' !! a' = structs m !! a').
Proof.
  unfold xGArr_Add. intros Hrun.
  destruct (xGArr_Verify m (Some a)) as [e0|] eqn:Hv; [|done].
  simpl in Hrun.
  destruct (decide (e0 = xGArr_tErr_NoErr)) as [->|Hne];
    [|by destruct e0; simplify_eq].
  destruct (Verify_NoErr _ _ Hv) as (o & Ho & _).
  rewrite Ho in Hrun. simpl in Hrun. case_decide as Hfull.
  - destruct (xGArr_Add_grow m r o) as [[[o1 m1]|]|] eqn:Hgrow;
      [| |done]; simpl in Hrun; [|by simplify_eq].
    destruct (xGArr_Add_store _ _ _ _) as [m2|] eqn:Hstore; [|done].
    simpl in Hrun. injection Hrun as <- <-.
    destruct (Add_grow_frame _ _ _ _ _ Hgrow)
      as (d & a' & Hd & Hfresh & Hd1 & Hdel1 & Hst1 & Hfr1).
    destruct (Add_store_frame _ _ _ _ _ Hstore)
      as (d' & Hd' & _ & Hdel & Hfr & Hown & Hother).
    rewrite Hd1 in Hd'. injection Hd' as <-.
    unfold foreign_blocks. rewrite Hown, Ho. simpl. rewrite Hd.
    split; [congruence|]. split; [congruence|].
    intros a0 Hne. rewrite Hother by done. by rewrite Hst1.
  - simpl in Hrun.
    destruct (xGArr_Add_store m a o src) as [m2|] eqn:Hstore; [|done].
    simpl in Hrun. injection Hrun as <- <-.
    destruct (Add_store_frame _ _ _ _ _ Hstore)
      as (d & Hd & _ & Hdel & Hfr & Hown & Hother).
    unfold foreign_blocks. rewrite Hown, Ho. simpl. rewrite Hd. done.
Qed.

Lemma Clear_frame m a r e m' :
  xGArr_Clear m (Some a) r = Some (e, m') →
  foreign_blocks m' a = foreign_blocks m a
  ∧ freed m' = freed m
  ∧ (∀ a', a' ≠ a → structs m' !! a' = structs m !! a').
Proof.
  unfold xGArr_Clear. intros Hrun.
  destruct (xGArr_Verify m (Some a)) as [e0|] eqn:Hv; [|done].
  simpl in Hrun.
  destruct (decide (e0 = xGArr_tErr_NoErr)) as [->|Hne];
    [|by destruct e0; simplify_eq].
  destruct (Verify_NoErr _ _ Hv) as (o & Ho & _).
  rewrite Ho in Hrun. simpl in Hrun.
  destruct (free m (mpData o)) as [m1|] eqn:Hfree; [|done]. simpl in Hrun.
  assert (blocks m1 = foreign_blocks m a ∧ structs m1 = structs m
          ∧ freed m1 = freed m) as (Hb1 & Hs1 & Hf1).
  { unfold foreign_blocks. rewrite Ho. simpl. unfold free in Hfree.
    destruct (mpData o) as [d|]; [|by simplify_eq].
    case_decide; [|done]. by injection Hfree as <-. }
  pose proof (fresh_addr_blocks m1) as Hfresh.
  rewrite <- Hb1, <- Hf1. setoid_rewrite <- Hs1.
  unfold malloc in Hrun. destruct r as [g|].
  - case_decide as Hgrant; injection Hrun as <- <-;
      unfold foreign_blocks; simpl; rewrite lookup_insert_eq; simpl;
      (split; [|split; [done|intros a' Hne; by rewrite lookup_insert_ne]]).
    + by apply delete_insert_id.
    + done.
  - injection Hrun as <- <-.
    unfold foreign_blocks; simpl; rewrite lookup_insert_eq; simpl.
    split; [done|]. split; [done|].
    intros a' Hne. by rewrite lookup_insert_ne.
Qed.

(** One call on the instance at [a] leaves every other live block, every
    other struct and the set of freed structs as they were. *)
Lemma perform_frame m a c e out m' :
  perform m (Some a) c = Some (e, out, m') →
  foreign_blocks m' a = foreign_blocks m a
  ∧ freed m' = freed m
  ∧ (∀ a', a' ≠ a → structs m' !! a' = structs m !! a').
Proof.
  destruct c as [src r| |dest|r]; simpl; intros Hrun.
  - destruct (xGArr_Add m (Some a) src r) as [[e1 m1]|] eqn:Hc; [|done].
    simpl in Hrun. injection Hrun as <- <- <-. by eapply Add_frame.
  - unfold xGArr_ResetIterator in Hrun.
    destruct (xGArr_Verify m (Some a)) as [e0|] eqn:Hv; [|done].
    simpl in Hrun.
    destruct (decide (e0 = xGArr_tErr_NoErr)) as [->|Hne];
      [|by destruct e0; simpl in Hrun; simplify_eq].
    destruct (Verify_NoErr _ _ Hv) as (o & Ho & _).
    rewrite Ho in Hrun. simpl in Hrun. injection Hrun as <- <- <-.
    unfold foreign_blocks. simpl. rewrite lookup_insert_eq, Ho. simpl.
    split; [done|]. split; [done|].
    intros a' Hne. by rewrite lookup_insert_ne.
  - unfold xGArr_NextItem in Hrun.
    destruct (xGArr_Verify m (Some a)) as [e0|] eqn:Hv; [|done].
    simpl in Hrun.
    destruct (decide (e0 = xGArr_tErr_NoErr)) as [->|Hne];
      [|by destruct e0; simpl in Hrun; simplify_eq].
    destruct (Verify_NoErr _ _ Hv) as (o & Ho & _).
    rewrite Ho in Hrun. simpl in Hrun.
    case_decide; [simpl in Hrun; by simplify_eq|].
    destruct (load_block m (mpData o)) as [blk|]; [|done]. simpl in Hrun.
    destruct (memcpy _ _ _ _ _) as [d|]; [|done]. simpl in Hrun.
    injection Hrun as <- <- <-.
    unfold foreign_blocks. simpl. rewrite lookup_insert_eq, Ho. simpl.
    split; [done|]. split; [done|].
    intros a' Hne. by rewrite lookup_insert_ne.
  - destruct (xGArr_Clear m (Some a) r) as [[e1 m1]|] eqn:Hc; [|done].
    simpl in Hrun. injection Hrun as <- <- <-. by eapply Clear_frame.
Qed.

Lemma run_frame cs m a rs m' :
  run m (Some a) cs = Some (rs, m') →
  foreign_blocks m' a = foreign_blocks m a
  ∧ freed m' = freed m
  ∧ (∀ a', a' ≠ a → structs m' !! a' = structs m !! a').
Proof.
  revert m rs. induction cs as [|c cs IH]; intros m rs Hrun.
  - simpl in Hrun. by injection Hrun as <- <-.
  - cbn [run] in Hrun.
    destruct (perform m (Some a) c) as [[[e out] m1]|] eqn:Hc; [|done].
    cbn [mbind option_bind] in Hrun.
    destruct (run m1 (Some a) cs) as [[rs1 m2]|] eqn:Hcs; [|done].
    cbn [mbind option_bind] in Hrun. injection Hrun as <- <-.
    destruct (perform_frame _ _ _ _ _ _ Hc) as (Hb1 & Hf1 & Hs1).
    destruct (IH _ _ Hcs) as (Hb2 & Hf2 & Hs2).
    split; [congruence|]. split; [congruence|].
    intros a' Hne. rewrite Hs2 by done. by apply Hs1.
Qed.


Lemma fresh_addr_structs m : structs m !! fresh_addr m = None.
Proof.
  apply not_elem_of_dom. intros Hin. apply (fresh_addr_fresh m).
  apply elem_of_union. left. apply elem_of_union. by left.
Qed.

(** What a successful [xGArr_Delete] leaves. *)
Lemma Delete_inv m a v m' :
  xGArr_Delete m (Some (Some a)) = Some (xGArr_tErr_NoErr, v, m') →
  ∃ o, structs m !! a = Some o ∧ v = Some NULL ∧ (a ∉ freed m)
    ∧ m' = mk_memory (<[a := set_mSignature 1 o]> (structs m))
             (foreign_blocks m a) ({[a]} ∪ freed m).
Proof.
  unfold xGArr_Delete. intros Hrun.
  destruct (xGArr_Verify m (Some a)) as [e0|] eqn:Hv; [|done].
  cbn [mbind option_bind] in Hrun.
  destruct (decide (e0 = xGArr_tErr_NoErr)) as [->|Hne];
    [|by destruct e0; simpl in Hrun; simplify_eq].
  destruct (Verify_NoErr _ _ Hv) as (o & Ho & _).
  rewrite Ho in Hrun. cbn [mbind option_bind] in Hrun.
  destruct (free _ (mpData o)) as [m2|] eqn:Hf2; [|done].
  cbn [mbind option_bind] in Hrun.
  destruct (free_struct m2 (Some a)) as [m3|] eqn:Hf3; [|done].
  cbn [mbind option_bind] in Hrun. injection Hrun as <- <-.
  exists o. split; [done|]. split; [done|].
  assert (m2 = mk_memory (<[a := set_mSignature 1 o]> (structs m))
                 (foreign_blocks m a) (freed m)) as ->.
  { unfold foreign_blocks. rewrite Ho. simpl. unfold free in Hf2.
    destruct (mpData o) as [d|]; [|by simplify_eq].
    case_decide; [|done]. by injection Hf2 as <-. }
  unfold free_struct in Hf3. simpl in Hf3.
  case_decide as Hlive; [|done]. injection Hf3 as <-.
  by destruct Hlive.
Qed.

(** What a successful [xGArr_New] leaves besides the new instance. *)
Lemma New_frame m h inSize inInitialNumItems r1 r2 a m' :
  xGArr_New m (Some h) inSize inInitialNumItems r1 r2
  = Some (xGArr_tErr_NoErr, Some (Some a), m') →
  structs m !! a = None
  ∧ foreign_blocks m' a = blocks m
  ∧ freed m' = freed m
  ∧ (∀ a', a' ≠ a → structs m' !! a' = structs m !! a').
Proof.
  unfold xGArr_New, malloc_struct, malloc. intros Hrun.
  destruct r1 as [g1|]; [|done]. destruct r2 as [g2|]; last first.
  { by destruct (free_struct _ _). }
  cbn [mnMaxSizeBytes] in Hrun. case_decide; last first.
  { by destruct (free_struct _ _). }
  injection Hrun as <- <-.
  split; [apply fresh_addr_structs|].
  unfold foreign_blocks. simpl. rewrite lookup_insert_eq. simpl.
  split; [|split; [done|]].
  - apply delete_insert_id.
    apply (fresh_addr_blocks (store_struct m (fresh_addr m) _)).
  - intros a' Hne. by rewrite !lookup_insert_ne.
Qed.

Lemma run_app cs1 cs2 m (this : ptr) :
  run m this (cs1 ++ cs2)
  = '(rs1, m1) ← run m this cs1;
    '(rs2, m2) ← run m1 this cs2;
    Some (rs1 ++ rs2, m2).
Proof.
  revert m. induction cs1 as [|c cs1 IH]; intros m.
  - simpl. by destruct (run m this cs2) as [[? ?]|].
  - cbn [app run]. destruct (perform m this c) as [[[e out] m1]|]; [|done].
    cbn [mbind option_bind]. rewrite IH.
    destruct (run m1 this cs1) as [[rs1 m2]|]; [|done].
    cbn [mbind option_bind].
    by destruct (run m2 this cs2) as [[rs2 m3]|].
Qed.

Lemma wrap_double_negative s :
  0 ≤ s ≤ Int.INT_MAX → Int.INT_MAX < 2 * s → Int.mul s 2 < 0.
Proof.
  unfold Int.mul, Int.wrap, Int.INT_MAX. intros Hs Hbig.
  assert ((s * 2 + 2 ^ 31) `mod` 2 ^ 32 = s * 2 + 2 ^ 31 - 2 ^ 32) as ->.
  { symmetry. apply (Z.mod_unique _ _ 1); lia. }
  lia.
Qed.

End Ownership.

Section Lifecycle.

Context {signature : Signature}.

Implicit Types (m : memory) (a : addr) (o : xGrowableArray).
Implicit Types (es : list (list byte)) (src dest : list byte).

(** X2. [xGArr_New] through a non-null handle pointer always returns.  It
    returns [NoErr] with the handle of a new struct exactly when both
    allocations are granted and the [int] product
    [inInitialNumItems * inSize] is not negative; otherwise it returns
    [AllocationFailed], leaves the handle variable and the live blocks as
    they were and hands back the struct it may have allocated. *)
Theorem New_outcome m (h : ptr) inSize inInitialNumItems r1 r2 :
  freed_known m →
  ∃ e v m',
    xGArr_New m (Some h) inSize inInitialNumItems r1 r2 = Some (e, v, m')
    ∧ freed_known m'
    ∧ if decide (is_Some r1 ∧ is_Some r2
                 ∧ 0 ≤ Int.mul inInitialNumItems inSize)
      then e = xGArr_tErr_NoErr
           ∧ v = Some (Some (fresh_addr m))
           ∧ structs m !! fresh_addr m = None
           ∧ freed m' = freed m
      else e = xGArr_tErr_AllocationFailed
           ∧ v = Some h
           ∧ blocks m' = blocks m
           ∧ ∀ a, a ∈ dom (structs m') → a ∈ dom (structs m) ∨ a ∈ freed m'.
Proof.
  intros Hknown.
  pose proof (fresh_addr_structs m) as Hfresh.
  assert (fresh_addr m ∉ freed m) as Hlive.
  { intros Hin. apply Hknown, elem_of_dom in Hin.
    rewrite Hfresh in Hin. by destruct Hin. }
  set (a := fresh_addr m) in *.
  assert (∀ o o',
            free_struct (store_struct (store_struct m a o) a o') (Some a)
            = Some (mk_memory (<[a:=o']> (<[a:=o]> (structs m))) (blocks m)
                      ({[a]} ∪ freed m))) as Hfree.
  { intros o o'. unfold free_struct. simpl. rewrite decide_True; [done|].
    split; [|done]. apply elem_of_dom. rewrite lookup_insert_eq. by eexists. }
  assert (∀ o o' bs fs, fs = freed m ∨ fs = {[a]} ∪ freed m →
            freed_known (mk_memory (<[a:=o']> (<[a:=o]> (structs m))) bs fs))
    as Hk.
  { intros o o' bs fs Hfs x. unfold freed_known. simpl.
    rewrite !dom_insert_L, !elem_of_union, elem_of_singleton.
    destruct Hfs as [->| ->].
    - intros Hx. right. right. by apply Hknown.
    - rewrite elem_of_union, elem_of_singleton.
      intros [->|Hx]; [by left|]. right. right. by apply Hknown. }
  assert (∀ o o' (x : addr),
            x ∈ dom (<[a:=o']> (<[a:=o]> (structs m))) →
            x ∈ dom (structs m) ∨ x ∈ {[a]} ∪ freed m) as Hleak.
  { intros o o' x. rewrite !dom_insert_L, !elem_of_union, elem_of_singleton.
    tauto. }
  unfold xGArr_New, malloc_struct, malloc.
  destruct r1 as [g1|]; last first.
  { exists xGArr_tErr_AllocationFailed, (Some h), m. split; [done|].
    split; [done|]. rewrite decide_False by (by intros [[? [=]] _]).
    repeat split; try done. by left. }
  fold a. destruct r2 as [g2|]; cbn [mnMaxSizeBytes]; last first.
  { cbv beta iota zeta. rewrite Hfree. cbn [mbind option_bind].
    eexists _, _, _. split; [done|]. split; [apply Hk; by right|].
    rewrite decide_False by (by intros (_ & [? [=]] & _)).
    simpl. repeat split; try done. apply Hleak. }
  case_decide as Hgrant.
  - cbv beta iota zeta.
    eexists _, _, _. split; [done|]. split; [apply Hk; by left|].
    rewrite decide_True by (repeat split; by eauto). done.
  - cbv beta iota zeta. rewrite Hfree. cbn [mbind option_bind].
    eexists _, _, _. split; [done|]. split; [apply Hk; by right|].
    rewrite decide_False by (by intros (_ & _ & ?)).
    simpl. repeat split; try done. apply Hleak.
Qed.

(** X3. [xGArr_Delete] succeeds on every live instance, also on one whose
    storage was lost by a failed [xGArr_Clear]: it trashes the signature,
    releases the storage block if there is one, hands back the struct and
    stores [NULL] in the handle variable; nothing else changes. *)
Theorem Delete_releases m a o :
  survives m a o → a ∉ freed m →
  xGArr_Delete m (Some (Some a))
  = Some (xGArr_tErr_NoErr, Some NULL,
          mk_memory (<[a := set_mSignature 1 o]> (structs m))
            (foreign_blocks m a) ({[a]} ∪ freed m)).
Proof.
  intros (Ho & Hlive & [] & Hdata) _. unfold xGArr_Delete.
  rewrite (Verify_live m a o) by done. cbn [mbind option_bind].
  rewrite Ho. cbn [mbind option_bind].
  assert (free (store_struct m a (set_mSignature 1 o)) (mpData o)
          = Some (mk_memory (<[a := set_mSignature 1 o]> (structs m))
                    (foreign_blocks m a) (freed m))) as ->.
  { unfold foreign_blocks. rewrite Ho. simpl.
    destruct Hdata as [->|(es & blk & Hblk & _)]; [done|].
    destruct (mpData o) as [d|]; [|done]. simpl in Hblk.
    unfold free. simpl.
    by rewrite decide_True by (apply elem_of_dom; by eexists). }
  cbn [mbind option_bind]. unfold free_struct. simpl.
  rewrite decide_True; [done|]. split; [|done].
  apply elem_of_dom. rewrite lookup_insert_eq. by eexists.
Qed.

(** X4. No leak over a lifetime: after a successful [xGArr_New], any calls
    on the instance (growth and [Clear] included) and a successful
    [xGArr_Delete], the live blocks are those from before [xGArr_New], every
    other struct is as it was and the only struct handed back is the
    instance's. *)
Theorem lifecycle_no_leak m0 (h : ptr) inSize inInitialNumItems r1 r2 a m1
    cs rs m2 v m3 :
  xGArr_New m0 (Some h) inSize inInitialNumItems r1 r2
  = Some (xGArr_tErr_NoErr, Some (Some a), m1) →
  run m1 (Some a) cs = Some (rs, m2) →
  xGArr_Delete m2 (Some (Some a)) = Some (xGArr_tErr_NoErr, v, m3) →
  blocks m3 = blocks m0
  ∧ freed m3 = {[a]} ∪ freed m0
  ∧ (∀ a', a' ≠ a → structs m3 !! a' = structs m0 !! a').
Proof.
  intros Hnew Hrun Hdel.
  destruct (New_frame _ _ _ _ _ _ _ _ Hnew) as (_ & Hb1 & Hf1 & Hs1).
  destruct (run_frame _ _ _ _ _ Hrun) as (Hb2 & Hf2 & Hs2).
  destruct (Delete_inv _ _ _ _ Hdel) as (o & Ho & _ & _ & ->). simpl.
  split; [congruence|]. split; [congruence|].
  intros a' Hne. rewrite lookup_insert_ne by done.
  rewrite Hs2 by done. by apply Hs1.
Qed.

(** X5. Calls on one instance leave the others alone: whatever is called on
    the instance at [a], another struct and a live block that is not the
    storage of [a] are afterwards what they were. *)
Theorem other_instances_untouched m a cs rs m' b ob d blk :
  run m (Some a) cs = Some (rs, m') →
  b ≠ a → structs m !! b = Some ob →
  blocks m !! d = Some blk →
  structs m !! a ≫= mpData ≠ Some d →
  structs m' !! b = Some ob ∧ blocks m' !! d = Some blk.
Proof.
  intros Hrun Hb Hob Hblk Hown.
  destruct (run_frame _ _ _ _ _ Hrun) as (Hfb & _ & Hs).
  split; [by rewrite Hs|].
  assert (foreign_blocks m a !! d = Some blk) as Hd.
  { unfold foreign_blocks.
    destruct (structs m !! a ≫= mpData) as [d0|]; [|done].
    rewrite lookup_delete_ne by congruence. done. }
  rewrite <- Hfb in Hd. unfold foreign_blocks in Hd.
  destruct (structs m' !! a ≫= mpData) as [d1|]; [|done].
  rewrite lookup_delete in Hd. by case_decide.
Qed.

(** X7. A traversal can be repeated: on an instance that holds [es],
    [xGArr_ResetIterator] followed by [length es + 1] calls of
    [xGArr_NextItem] yields the items of [es] in order and then [LastItem],
    from any cursor position and as many times over as one likes, and the
    instance still holds [es] afterwards. *)
Theorem traversal_repeatable (k : nat) m a o es dest :
  holds m a o es →
  mnItemSizeBytes o ≤ Z.of_nat (length dest) →
  ∃ m' o',
    run m (Some a)
      (concat (replicate k
                (ResetIterator :: replicate (S (length es)) (NextItem dest))))
    = Some (concat (replicate k
                     ((xGArr_tErr_NoErr, None)
                      :: ((λ e, (xGArr_tErr_NoErr,
                                 Some (e ++ drop (Z.to_nat (mnItemSizeBytes o))
                                              dest))) <$> es)
                      ++ [(xGArr_tErr_LastItem, Some dest)])), m')
    ∧ holds m' a o' es
    ∧ mnItemSizeBytes o' = mnItemSizeBytes o
    ∧ blocks m' = blocks m.
Proof.
  intros Hh Hdest. revert m o Hh Hdest.
  induction k as [|k IH]; intros m o Hh Hdest.
  - exists m, o. split; [done|]. split; [exact Hh|]. by split.
  - pose proof Hh as (Ho & Hlive & [] & _ & _ & _ & Hnum & _).
    set (o0 := set_mnNext 0 o).
    assert (holds (store_struct m a o0) a o0 es) as Hh0
      by (apply holds_set_mnNext; [done|lia]).
    destruct (traverse_spec (length es) _ a o0 es dest Hh0)
      as (m1 & o1 & Hrun1 & Hh1 & _ & _ & _ & _ & Hi1 & _ & Hb1);
      [done|simpl; lia|].
    destruct (IH m1 o1 Hh1) as (m2 & o2 & Hrun2 & Hh2 & Hi2 & Hb2);
      [simpl in Hi1; lia|].
    exists m2, o2. split; [|split; [done|split; [|]]].
    + rewrite !(replicate_S k). cbn [concat]. rewrite run_app.
      change (run m (Some a) (ResetIterator :: ?cs))
        with ('(e, d, m1) ← perform m (Some a) ResetIterator;
              '(rs, m2) ← run m1 (Some a) cs;
              Some ((e, d) :: rs, m2)).
      cbn [perform mbind option_bind].
      rewrite (ResetIterator_live m a o) by done.
      cbn [mbind option_bind]. fold o0. rewrite Hrun1.
      cbn [mbind option_bind]. simpl in Hi1. rewrite Hi1 in Hrun2.
      rewrite Hrun2. cbn [mbind option_bind]. by rewrite drop_0.
    + simpl in Hi1. congruence.
    + by rewrite Hb2, Hb1.
Qed.

(** X8. [xGArr_NextItem] before the end of a sequence: with an output buffer
    of [mnItemSizeBytes] bytes or more it overwrites exactly the first
    [mnItemSizeBytes] bytes with the item under the cursor, keeps the rest
    of the buffer and every block, and moves the cursor by one; with a
    shorter buffer the copy runs past its end and nothing is defined. *)
Theorem NextItem_output_buffer m a o es dest e :
  holds m a o es →
  es !! Z.to_nat (mnNext o) = Some e →
  if decide (mnItemSizeBytes o ≤ Z.of_nat (length dest))
  then ∃ m' o',
         xGArr_NextItem m (Some a) dest
         = Some (xGArr_tErr_NoErr,
                 e ++ drop (Z.to_nat (mnItemSizeBytes o)) dest, m')
         ∧ holds m' a o' es
         ∧ mnNext o' = mnNext o + 1
         ∧ blocks m' = blocks m
  else xGArr_NextItem m (Some a) dest = None.
Proof.
  intros Hh He. pose proof Hh as (Ho & Hlive & [] & blk & Hblk & Hlen & Hnum & _).
  assert (mnNext o < mnNumItems o) as Hlt.
  { apply lookup_lt_Some in He. lia. }
  case_decide as Hroom.
  - eexists _, _. split; [by apply (NextItem_item m a o es dest e)|].
    split; [apply holds_set_mnNext; [done|lia]|]. done.
  - unfold xGArr_NextItem.
    rewrite (Verify_live m a o) by done. cbn [mbind option_bind].
    rewrite Ho. cbn [mbind option_bind]. rewrite decide_False by lia.
    rewrite Hblk. cbn [mbind option_bind].
    unfold memcpy. by rewrite decide_False by lia.
Qed.

(** X9. [xGArr_Add] on a valid instance, given [mnItemSizeBytes] bytes or
    more to copy: it returns [NoErr], appends the first [mnItemSizeBytes]
    bytes of the source and leaves a valid instance, whenever there is room
    or the allocator grants a doubled storage that still fits in [int]. *)
Theorem Add_succeeds m a o es src r :
  valid m a o es →
  mnItemSizeBytes o ≤ Z.of_nat (length src) →
  mnNumItems o < mnMaxNumItems o
  ∨ (is_Some r ∧ 2 * mnMaxSizeBytes o ≤ Int.INT_MAX) →
  ∃ m' o',
    xGArr_Add m (Some a) src r = Some (xGArr_tErr_NoErr, m')
    ∧ valid m' a o' (es ++ [take (Z.to_nat (mnItemSizeBytes o)) src])
    ∧ mnNumItems o' = mnNumItems o + 1.
Proof.
  intros Hv Hsrc Hroom. pose proof Hv as (Hh & Hcap & Hsz).
  pose proof Hh as (Ho & Hlive & [] & _).
  destruct (Add_defined m a o es src r Hv Hsrc) as [[e m'] Hadd].
  destruct (Add_spec m a o es src r e m' Hh Hadd)
    as [(-> & -> & Hfull & Hfail)|(-> & o' & Hh' & Hn & _ & Hi & Hgrow)].
  - exfalso. destruct Hroom as [?|[[g ->] Hfit]]; [lia|].
    unfold malloc in Hfail. rewrite decide_True in Hfail; [done|].
    unfold Int.mul. rewrite wrap_in_range; [nia|].
    unfold Int.in_range, Int.INT_MIN, Int.INT_MAX in *. nia.
  - exists m', o'. split; [done|]. split; [|done].
    split; [done|]. nia.
Qed.

(** X10. The storage cannot grow past [INT_MAX] bytes: on a live, full
    instance whose doubled size [2 * mnMaxSizeBytes] does not fit in [int],
    [xGArr_Add] returns [AllocationFailed] and changes nothing, whatever the
    allocator would grant. *)
Theorem Add_capacity_ceiling m a o src r :
  structs m !! a = Some o →
  a ∉ freed m →
  mSignature o = xGArr_kSignature →
  ¬ mnNumItems o < mnMaxNumItems o →
  0 ≤ mnMaxSizeBytes o ≤ Int.INT_MAX →
  Int.INT_MAX < 2 * mnMaxSizeBytes o →
  xGArr_Add m (Some a) src r = Some (xGArr_tErr_AllocationFailed, m).
Proof.
  intros Ho Hlive Hsig Hfull Hsz Hbig. unfold xGArr_Add.
  rewrite (Verify_live m a o) by done. cbn [mbind option_bind].
  rewrite Ho. cbn [mbind option_bind].
  rewrite decide_True by done. unfold xGArr_Add_grow, malloc.
  pose proof (wrap_double_negative _ Hsz Hbig).
  destruct r as [g|]; [|done]. by rewrite decide_False by lia.
Qed.

(** X11. After a failed [xGArr_Clear] the instance still passes
    [xGArr_Verify] but has no storage: [xGArr_NextItem] with items left to
    traverse copies through a null pointer (undefined), and so does every
    [xGArr_Add], except on a full instance when the allocation of the
    doubled storage is refused: that one returns [AllocationFailed] and
    changes nothing. *)
Theorem Clear_failure_then_undefined m a o es m' :
  valid m a o es →
  xGArr_Clear m (Some a) None = Some (xGArr_tErr_AllocationFailed, m') →
  (mnNext o < mnNumItems o →
   ∀ dest, xGArr_NextItem m' (Some a) dest = None)
  ∧ (∀ src r,
       xGArr_Add m' (Some a) src r
       = if decide (mnNumItems o = mnMaxNumItems o
                    ∧ (malloc m' r (Int.mul (mnMaxSizeBytes o) 2)).1 = NULL)
         then Some (xGArr_tErr_AllocationFailed, m')
         else None).
Proof.
  intros (Hh & _) Hclear. pose proof Hh as (Ho & Hlive & [] & _).
  destruct (Clear_spec _ _ _ _ _ _ (holds_survives _ _ _ _ Hh) Hclear)
    as (o' & Ho' & _ & _ & _ & _ & [(? & _)|(_ & _ & -> & _)]); [done|].
  assert (xGArr_Verify m' (Some a) = Some xGArr_tErr_NoErr) as Hv.
  { apply (Verify_live m' a (set_mpData NULL o)); [done| |done].
    by rewrite (Clear_freed _ _ _ _ _ Hclear). }
  assert (mnNumItems o ≤ mnMaxNumItems o) as Hle by nia.
  split.
  - intros Hlt dest. unfold xGArr_NextItem. rewrite Hv.
    cbn [mbind option_bind]. rewrite Ho'. cbn [mbind option_bind].
    by rewrite decide_False by (simpl; lia).
  - intros src r. unfold xGArr_Add. rewrite Hv.
    cbn [mbind option_bind]. rewrite Ho'. cbn [mbind option_bind].
    simpl (mnNumItems _). simpl (mnMaxNumItems _).
    destruct (decide (¬ mnNumItems o < mnMaxNumItems o)) as [Hfull|Hroom].
    + unfold xGArr_Add_grow. simpl (mnMaxSizeBytes _).
      destruct (malloc m' r _) as [[a'|] m1] eqn:Hm.
      * rewrite decide_False by (by intros [_ [=]]).
        simpl. by destruct (blocks m1 !! a').
      * rewrite decide_True by (split; [lia|done]). done.
    + rewrite decide_False by (intros [? _]; lia). done.
Qed.

(** X12. A failed [xGArr_Clear] can be repaired: a later [xGArr_Clear] that
    the allocator grants returns [NoErr] and leaves a valid, empty instance
    of the same capacity and item size. *)
Theorem Clear_recovers m a o es m1 g :
  valid m a o es →
  xGArr_Clear m (Some a) None = Some (xGArr_tErr_AllocationFailed, m1) →
  ∃ m2 o2,
    xGArr_Clear m1 (Some a) (Some g) = Some (xGArr_tErr_NoErr, m2)
    ∧ valid m2 a o2 []
    ∧ mnMaxNumItems o2 = mnMaxNumItems o
    ∧ mnItemSizeBytes o2 = mnItemSizeBytes o.
Proof.
  intros (Hh & Hcap & Hsz) Hclear. pose proof Hh as (Ho & Hlive & Hgeo & _).
  destruct (Clear_spec _ _ _ _ _ _ (holds_survives _ _ _ _ Hh) Hclear)
    as (o1 & Ho1 & _ & _ & _ & _ & [(? & _)|(_ & _ & -> & _)]); [done|].
  assert (survives m1 a (set_mpData NULL o)) as Hs1.
  { split; [done|]. split; [by rewrite (Clear_freed _ _ _ _ _ Hclear)|].
    split; [by destruct Hgeo|]. by left. }
  destruct (Clear_defined m1 a _ (Some g) Hs1) as [[e m2] Hdef].
  destruct (Clear_spec _ _ _ _ _ _ Hs1 Hdef)
    as (o2 & Ho2 & Hc2 & Hb2 & Hi2 & _
        & [(-> & _ & _ & _ & Hh2)|(_ & ? & _)]); [|done].
  exists m2, o2. split; [done|]. simpl in *.
  split; [|done]. split; [done|]. lia.
Qed.

(** X13. No call lowers the recorded capacity or changes the item size:
    over any sequence of calls on an instance that survives, the field
    [mnMaxNumItems] never decreases and the fields [mnItemSizeBytes] and
    [mSignature] stay what they were, also across a refused [Clear], which
    releases the storage block but leaves these fields alone. *)
Theorem capacity_never_shrinks m a o cs rs m' :
  survives m a o →
  run m (Some a) cs = Some (rs, m') →
  ∃ o', structs m' !! a = Some o'
    ∧ mnMaxNumItems o ≤ mnMaxNumItems o'
    ∧ mnItemSizeBytes o' = mnItemSizeBytes o
    ∧ mSignature o' = mSignature o.
Proof.
  intros Hs Hrun. pose proof Hs as (_ & _ & [] & _).
  destruct (run_survives cs m a o rs m' Hs Hrun)
    as (o' & (Ho' & _ & [] & _) & Hi & Hc).
  exists o'. split; [done|]. split; [|split; [done|congruence]].
  assert (0 ≤ mnMaxNumItems o) by nia.
  assert (0 < 2 ^ Z.of_nat (growth_events m (Some a) cs))
    by (apply Z.pow_pos_nonneg; lia).
  nia.
Qed.

End Lifecycle.

(** ** The further properties on concrete inputs *)

Section MoreInstances.

Import Example Scenario.

#[local] Existing Instance signature.

Ltac concrete := vm_compute; done.

Lemma empty_memory_freed_known : freed_known empty_memory.
Proof. intros x Hx. vm_compute in Hx. done. Qed.

(** [xGArr_New (&h, 2, 1073741824)]: the product is [2 ^ 31], which is
    negative in [int], and the call fails though the allocator grants. *)
Lemma New_outcome_witness :
  ∃ e v m',
    xGArr_New empty_memory (Some NULL) 2 1073741824 zeros zeros
    = Some (e, v, m')
    ∧ freed_known m'
    ∧ if decide (is_Some zeros ∧ is_Some zeros ∧ 0 ≤ Int.mul 1073741824 2)
      then e = xGArr_tErr_NoErr
           ∧ v = Some (Some (fresh_addr empty_memory))
           ∧ structs empty_memory !! fresh_addr empty_memory = None
           ∧ freed m' = freed empty_memory
      else e = xGArr_tErr_AllocationFailed
           ∧ v = Some NULL
           ∧ blocks m' = blocks empty_memory
           ∧ ∀ a, a ∈ dom (structs m') →
                  a ∈ dom (structs empty_memory) ∨ a ∈ freed m'.
Proof.
  apply (New_outcome empty_memory NULL 2 1073741824 zeros zeros).
  exact empty_memory_freed_known.
Defined.

Lemma Delete_releases_witness :
  xGArr_Delete grown (Some (Some 1%positive))
  = Some (xGArr_tErr_NoErr, Some NULL,
          mk_memory (<[1%positive := set_mSignature 1 (struct_in grown)]>
                       (structs grown))
            (foreign_blocks grown 1%positive) ({[1%positive]} ∪ freed grown)).
Proof.
  apply (Delete_releases grown 1%positive (struct_in grown)).
  - apply (holds_survives _ _ _ [item1; item2; item3]), grown_valid.
  - intros Hin. vm_compute in Hin. done.
Defined.

(** [xGArr_New (&h, 4, 2)], three items with one growth, [xGArr_Delete]. *)
Lemma lifecycle_no_leak_witness :
  blocks ended = blocks empty_memory
  ∧ freed ended = {[1%positive]} ∪ freed empty_memory
  ∧ (∀ a', a' ≠ 1%positive →
           structs ended !! a' = structs empty_memory !! a').
Proof.
  apply (lifecycle_no_leak empty_memory NULL 4 2 zeros zeros 1%positive
           created [Add item1 zeros; Add item2 zeros; Add item3 zeros]
           (replicate 3 (xGArr_tErr_NoErr, None)) grown (Some NULL) ended).
  - concrete.
  - concrete.
  - concrete.
Defined.

(** Two instances; three items added to the first, with a growth: the
    second struct and its storage are as they were. *)
Lemma other_instances_untouched_witness :
  structs two_grown !! 3%positive
  = Some (default (struct_in empty_memory) (structs two !! 3%positive))
  ∧ blocks two_grown !! 4%positive = Some (replicate 8 Byte.x00).
Proof.
  apply (other_instances_untouched two 1%positive
           [Add item1 zeros; Add item2 zeros; Add item3 zeros]
           (replicate 3 (xGArr_tErr_NoErr, None)) two_grown 3%positive
           (default (struct_in empty_memory) (structs two !! 3%positive))
           4%positive (replicate 8 Byte.x00)).
  - concrete.
  - concrete.
  - concrete.
  - concrete.
  - concrete.
Defined.

(** Two traversals in a row over three items. *)
Lemma traversal_repeatable_witness :
  ∃ m' o',
    run grown (Some 1%positive)
      (concat (replicate 2
                 (ResetIterator :: replicate 4 (NextItem out))))
    = Some (concat (replicate 2
                      ((xGArr_tErr_NoErr, None)
                       :: ((λ e, (xGArr_tErr_NoErr,
                                  Some (e ++ drop 4 out)))
                             <$> [item1; item2; item3])
                       ++ [(xGArr_tErr_LastItem, Some out)])), m')
    ∧ holds m' 1%positive o' [item1; item2; item3]
    ∧ mnItemSizeBytes o' = 4
    ∧ blocks m' = blocks grown.
Proof.
  apply (traversal_repeatable 2 grown 1%positive (struct_in grown)
           [item1; item2; item3] out).
  - apply grown_valid.
  - concrete.
Defined.

(** The second of two items, read into a buffer of 4 bytes. *)
Lemma NextItem_output_buffer_witness :
  if decide (mnItemSizeBytes (struct_in midway) ≤ Z.of_nat (length out))
  then ∃ m' o',
         xGArr_NextItem midway (Some 1%positive) out
         = Some (xGArr_tErr_NoErr,
                 item2 ++ drop (Z.to_nat (mnItemSizeBytes (struct_in midway)))
                            out, m')
         ∧ holds m' 1%positive o' [item1; item2]
         ∧ mnNext o' = mnNext (struct_in midway) + 1
         ∧ blocks m' = blocks midway
  else xGArr_NextItem midway (Some 1%positive) out = None.
Proof.
  apply (NextItem_output_buffer midway 1%positive (struct_in midway)
           [item1; item2] out item2).
  - split; [concrete|]. split; [concrete|]. split; [split; concrete|].
    exists (item1 ++ item2). split; [concrete|].
    split; [concrete|]. split; [concrete|].
    split; [repeat constructor|concrete].
  - concrete.
Defined.

(** A fourth item into a capacity of four. *)
Lemma Add_succeeds_witness :
  ∃ m' o',
    xGArr_Add grown (Some 1%positive) item1 None
    = Some (xGArr_tErr_NoErr, m')
    ∧ valid m' 1%positive o'
        ([item1; item2; item3]
         ++ [take (Z.to_nat (mnItemSizeBytes (struct_in grown))) item1])
    ∧ mnNumItems o' = mnNumItems (struct_in grown) + 1.
Proof.
  apply (Add_succeeds grown 1%positive (struct_in grown)
           [item1; item2; item3] item1 None).
  - exact grown_valid.
  - concrete.
  - left. concrete.
Defined.

(** A full instance of [2 ^ 30] bytes: the doubled size is [2 ^ 31]. *)
Lemma Add_capacity_ceiling_witness :
  xGArr_Add huge (Some 1%positive) item1 zeros
  = Some (xGArr_tErr_AllocationFailed, huge).
Proof.
  apply (Add_capacity_ceiling huge 1%positive huge_struct).
  - concrete.
  - concrete.
  - concrete.
  - concrete.
  - split; concrete.
  - concrete.
Defined.

(** Three items in a capacity of four, then a refused [Clear]. *)
Lemma Clear_failure_then_undefined_witness :
  (mnNext (struct_in grown) < mnNumItems (struct_in grown) →
   ∀ dest, xGArr_NextItem lost (Some 1%positive) dest = None)
  ∧ (∀ src r,
       xGArr_Add lost (Some 1%positive) src r
       = if decide (mnNumItems (struct_in grown)
                    = mnMaxNumItems (struct_in grown)
                    ∧ (malloc lost r
                         (Int.mul (mnMaxSizeBytes (struct_in grown)) 2)).1
                      = NULL)
         then Some (xGArr_tErr_AllocationFailed, lost)
         else None).
Proof.
  apply (Clear_failure_then_undefined grown 1%positive (struct_in grown)
           [item1; item2; item3] lost).
  - exact grown_valid.
  - concrete.
Defined.

Lemma Clear_recovers_witness :
  ∃ m2 o2,
    xGArr_Clear lost (Some 1%positive) (Some (λ _, Byte.x00))
    = Some (xGArr_tErr_NoErr, m2)
    ∧ valid m2 1%positive o2 []
    ∧ mnMaxNumItems o2 = mnMaxNumItems (struct_in grown)
    ∧ mnItemSizeBytes o2 = mnItemSizeBytes (struct_in grown).
Proof.
  apply (Clear_recovers grown 1%positive (struct_in grown)
           [item1; item2; item3] lost).
  - exact grown_valid.
  - concrete.
Defined.

Lemma capacity_never_shrinks_witness :
  ∃ o', structs lost !! 1%positive = Some o'
    ∧ mnMaxNumItems (struct_in created) ≤ mnMaxNumItems o'
    ∧ mnItemSizeBytes o' = mnItemSizeBytes (struct_in created)
    ∧ mSignature o' = mSignature (struct_in created).
Proof.
  apply (capacity_never_shrinks created 1%positive (struct_in created)
           [Add item1 zeros; Add item2 zeros; Add item3 zeros; Clear None]
           [(xGArr_tErr_NoErr, None); (xGArr_tErr_NoErr, None);
            (xGArr_tErr_NoErr, None); (xGArr_tErr_AllocationFailed, None)]).
  - split; [concrete|]. split; [concrete|]. split; [split; concrete|].
    right. exists [].
    exists (replicate 8 Byte.x00). split; [concrete|].
    split; [concrete|]. split; [concrete|].
    split; [constructor|concrete].
  - concrete.
Defined.

End MoreInstances.

(** C5, as stated, fails for the handle that [xGArr_Delete] invalidated:
    [xGArr_Delete] frees the struct right after it has overwritten its
    signature, so a call through a copy of the old, non-null handle reads
    freed memory and has no defined result, [InvalidSignature] or other.
    This holds whatever the value of [xGArr_kSignature] is; the instance is
    the one [xGArr_New (&h, 4, 2)] makes on an empty memory. *)
Lemma invalid_handle_rejected_after_Delete :
  ¬ ∃ signature : Signature,
      ∀ m a v m' src r,
        xGArr_Delete m (Some (Some a)) = Some (xGArr_tErr_NoErr, v, m') →
        xGArr_Add m' (Some a) src r
        = Some (xGArr_tErr_InvalidSignature, m').
Proof.
  intros [signature Hclaim].
  pose (m1 := default empty_memory
                (snd <$> xGArr_New empty_memory (Some NULL) 4 2
                           Example.zeros Example.zeros)).
  pose (o1 := default (mk_xGrowableArray 0 0 0 0 0 0 NULL)
                (structs m1 !! 1%positive)).
  assert (xGArr_Verify m1 (Some 1%positive) = Some xGArr_tErr_NoErr) as Hv.
  { apply (Verify_live m1 1%positive o1).
    - vm_compute. done.
    - intros Hin. vm_compute in Hin. done.
    - vm_compute. done. }
  destruct (xGArr_Delete m1 (Some (Some 1%positive))) as [[[e v] m2]|] eqn:Hdel.
  - pose proof Hdel as Hres. unfold xGArr_Delete in Hres.
    rewrite Hv in Hres. vm_compute in Hres.
    injection Hres as He Hvar Hm2. subst e.
    specialize (Hclaim m1 1%positive v m2 [] None Hdel).
    rewrite <- Hm2 in Hclaim. vm_compute in Hclaim. done.
  - unfold xGArr_Delete in Hdel. rewrite Hv in Hdel.
    vm_compute in Hdel. done.
Qed.
